(** * contrainte: validators for French writing constraints

    A shallow embedding of [src/lib/constraints.ts] (lipogram, monovocalism,
    tautogram, alliteration) and the properties its specification states.

    ECMAScript strings are sequences of UTF-16 code units, and the built-ins
    the module calls ([toLowerCase], [normalize], [match], [replace],
    [includes], [startsWith], string iteration) are modelled after their
    ECMA-262 definitions.  The Unicode Character Database those built-ins
    consult is a parameter ([UCD]); an excerpt of it is given as
    [UCD_excerpt] for the concrete evaluations. *)

From Stdlib Require Import NArith List String Ascii Bool Lia.
Import ListNotations.
Open Scope N_scope.
Open Scope list_scope.

(** ** ECMAScript strings *)

Definition code_unit := N.
Definition code_point := N.

(** A String value: a finite sequence of 16-bit code units. *)
Definition jsstring := list code_unit.

Definition is_leading_surrogate (u : code_unit) : bool :=
  (0xD800 <=? u) && (u <=? 0xDBFF).

Definition is_trailing_surrogate (u : code_unit) : bool :=
  (0xDC00 <=? u) && (u <=? 0xDFFF).

Definition UTF16SurrogatePairToCodePoint (lead trail : code_unit) : code_point :=
  (lead - 0xD800) * 0x400 + (trail - 0xDC00) + 0x10000.

(** ECMA-262 StringToCodePoints: surrogate pairs are combined, every other
    code unit (a lone surrogate included) is a code point of its own. *)
Fixpoint StringToCodePoints (s : jsstring) : list code_point :=
  match s with
  | [] => []
  | lead :: tail =>
      match tail with
      | trail :: rest =>
          if is_leading_surrogate lead && is_trailing_surrogate trail
          then UTF16SurrogatePairToCodePoint lead trail :: StringToCodePoints rest
          else lead :: StringToCodePoints tail
      | [] => [lead]
      end
  end.

Definition UTF16EncodeCodePoint (cp : code_point) : jsstring :=
  if cp <=? 0xFFFF then [cp]
  else [(cp - 0x10000) / 0x400 + 0xD800; (cp - 0x10000) mod 0x400 + 0xDC00].

Definition CodePointsToString (text : list code_point) : jsstring :=
  flat_map UTF16EncodeCodePoint text.

(** A code point that is not a surrogate: a Unicode scalar value. *)
Definition scalar_value (cp : code_point) : Prop :=
  cp < 0xD800 \/ (0xDFFF < cp /\ cp <= 0x10FFFF).

(** A string without lone surrogates. *)
Definition well_formed (s : jsstring) : Prop :=
  Forall scalar_value (StringToCodePoints s).

(** *** String literals

    The source file is UTF-8; [js] reads a literal of this file (UTF-8 bytes as
    well) as the String value the TypeScript literal denotes. *)

Definition continuation (a : ascii) : N := N.land (N_of_ascii a) 0x3F.

Fixpoint utf8_code_points (s : string) : list code_point :=
  match s with
  | EmptyString => []
  | String a s1 =>
      let b := N_of_ascii a in
      if b <? 0x80 then b :: utf8_code_points s1
      else match s1 with
      | EmptyString => [b]
      | String a1 s2 =>
          if b <? 0xE0 then
            (N.land b 0x1F * 0x40 + continuation a1) :: utf8_code_points s2
          else match s2 with
          | EmptyString => [b]
          | String a2 s3 =>
              if b <? 0xF0 then
                (N.land b 0x0F * 0x1000 + continuation a1 * 0x40 + continuation a2)
                  :: utf8_code_points s3
              else match s3 with
              | EmptyString => [b]
              | String a3 s4 =>
                  (N.land b 0x07 * 0x40000 + continuation a1 * 0x1000
                   + continuation a2 * 0x40 + continuation a3)
                    :: utf8_code_points s4
              end
          end
      end
  end.

Definition js (literal : string) : jsstring :=
  CodePointsToString (utf8_code_points literal).

(** The character U+0022, which a literal of this file cannot hold twice in
    a row. *)
Definition dquote : jsstring := [0x22].

(** *** String.prototype.startsWith, String.prototype.includes *)

Fixpoint startsWith (s searchString : jsstring) {struct searchString} : bool :=
  match searchString, s with
  | [], _ => true
  | _ :: _, [] => false
  | a :: searchString', b :: s' => (a =? b) && startsWith s' searchString'
  end.

Fixpoint includes (s searchString : jsstring) : bool :=
  startsWith s searchString ||
  match s with
  | [] => false
  | _ :: s' => includes s' searchString
  end.

Definition jsstring_eqb (a b : jsstring) : bool :=
  if list_eq_dec N.eq_dec a b then true else false.

(** The string iterator behind [for (const char of s)]: one String per code
    point. *)
Definition string_iterator (s : jsstring) : list jsstring :=
  map UTF16EncodeCodePoint (StringToCodePoints s).

(** Array.prototype.includes on an array of strings. *)
Definition array_includes (arr : list jsstring) (x : jsstring) : bool :=
  existsb (jsstring_eqb x) arr.

(** *** Array.prototype.sort without a comparator: code-unit order *)

Fixpoint jsstring_ltb (a b : jsstring) : bool :=
  match a, b with
  | [], [] => false
  | [], _ :: _ => true
  | _ :: _, [] => false
  | x :: a', y :: b' => (x <? y) || ((x =? y) && jsstring_ltb a' b')
  end.

Fixpoint sort_insert (x : jsstring) (sorted : list jsstring) : list jsstring :=
  match sorted with
  | [] => [x]
  | y :: rest => if jsstring_ltb y x then y :: sort_insert x rest else x :: sorted
  end.

Definition sort (arr : list jsstring) : list jsstring :=
  fold_left (fun acc x => sort_insert x acc) arr [].

(** ** The Unicode Character Database

    What [toLowerCase] and [normalize] look up, for each code point: its
    lowercase mapping in context (UnicodeData.txt and SpecialCasing.txt; the
    context, the code points before, nearest first, and after, is what the
    Final_Sigma condition reads), its full canonical decomposition (the code
    point itself when it has none) and its canonical combining class. *)

Record UCD := {
  Lowercase_Mapping :
    list code_point -> code_point -> list code_point -> list code_point;
  canonical_decomposition : code_point -> list code_point;
  ccc : code_point -> N
}.

Section Builtins.

Variable U : UCD.

(** Unicode Default Case Conversion, toLowercase(X): each character is
    replaced by its lowercase mapping. *)
Fixpoint toLowercase_from (before : list code_point) (X : list code_point)
  : list code_point :=
  match X with
  | [] => []
  | C :: after =>
      Lowercase_Mapping U before C after ++ toLowercase_from (C :: before) after
  end.

(** String.prototype.toLowerCase *)
Definition toLowerCase (s : jsstring) : jsstring :=
  CodePointsToString (toLowercase_from [] (StringToCodePoints s)).

(** Canonical Ordering Algorithm: in a decomposed sequence, a character is
    moved behind the characters after it that have a smaller, non-zero
    combining class; characters of equal class keep their order. *)
Fixpoint place (c : code_point) (ordered : list code_point) : list code_point :=
  match ordered with
  | [] => [c]
  | d :: rest =>
      if (0 <? ccc U d) && (ccc U d <? ccc U c)
      then d :: place c rest
      else c :: ordered
  end.

Fixpoint canonical_order (l : list code_point) : list code_point :=
  match l with
  | [] => []
  | c :: rest => place c (canonical_order rest)
  end.

(** Normalization Form D of a sequence of code points. *)
Definition NFD (l : list code_point) : list code_point :=
  canonical_order (flat_map (canonical_decomposition U) l).

(** String.prototype.normalize('NFD') *)
Definition normalize_NFD (s : jsstring) : jsstring :=
  CodePointsToString (NFD (StringToCodePoints s)).

End Builtins.

(** ** src/lib/constraints.ts *)

Definition VOWELS : list jsstring :=
  [js "a"; js "e"; js "i"; js "o"; js "u"; js "y"].

Definition CONSONANTS : list jsstring :=
  [js "b"; js "c"; js "d"; js "f"; js "g"; js "h"; js "j"; js "k"; js "l"; js "m";
   js "n"; js "p"; js "q"; js "r"; js "s"; js "t"; js "v"; js "w"; js "x"; js "z"].

Definition ALPHABET : list jsstring := sort (VOWELS ++ CONSONANTS).

(** *** WORD_REGEX = /[\w'-]+(?<!-)/g *)

(** [\w] of a pattern without the [u] and [i] flags: [A-Za-z0-9_]. *)
Definition word_character (u : code_unit) : bool :=
  ((0x41 <=? u) && (u <=? 0x5A)) || ((0x61 <=? u) && (u <=? 0x7A))
  || ((0x30 <=? u) && (u <=? 0x39)) || (u =? 0x5F).

(** The class [[\w'-]]. *)
Definition WORD_CLASS (u : code_unit) : bool :=
  word_character u || (u =? 0x27) || (u =? 0x2D).

(** The greedy [+] first takes the longest run of the class. *)
Fixpoint longest_run (class : code_unit -> bool) (s : jsstring) : jsstring :=
  match s with
  | [] => []
  | u :: rest => if class u then u :: longest_run class rest else []
  end.

(** [(?<!-)] after the run: the code unit before the end of the match must not
    be U+002D.  The matcher backtracks into the [+], giving back one code unit
    at a time (the run is held last unit first); a run with nothing left fails,
    since [+] needs one unit. *)
Fixpoint give_back (reversed_run : jsstring) : option jsstring :=
  match reversed_run with
  | [] => None
  | u :: shorter =>
      if u =? 0x2D then give_back shorter else Some (rev reversed_run)
  end.

(** One match attempt of WORD_REGEX at the start of [s]. *)
Definition WORD_REGEX (s : jsstring) : option jsstring :=
  give_back (rev (longest_run WORD_CLASS s)).

(** String.prototype.match with a global pattern that cannot match the empty
    string: the matches from left to right; after a match the search resumes
    behind it ([consumed] counts the code units of the last match still to
    skip), after a failed attempt one code unit further. *)
Fixpoint match_global (pattern : jsstring -> option jsstring)
    (consumed : nat) (s : jsstring) : list jsstring :=
  match s with
  | [] => []
  | _ :: rest =>
      match consumed with
      | S still => match_global pattern still rest
      | O =>
          match pattern s with
          | Some m => m :: match_global pattern (Nat.pred (List.length m)) rest
          | None => match_global pattern O rest
          end
      end
  end.

(** [text.match(WORD_REGEX) || []] *)
Definition words (text : jsstring) : list jsstring :=
  match_global WORD_REGEX O text.

(** *** normalizeText *)

(** The class of U+0300 to U+036F, the block Combining Diacritical Marks. *)
Definition combining_diacritical (u : code_unit) : bool :=
  (0x300 <=? u) && (u <=? 0x36F).

(** String.prototype.replace with a global one-unit class pattern. *)
Fixpoint replace_all (class : code_unit -> bool) (replacement s : jsstring)
  : jsstring :=
  match s with
  | [] => []
  | u :: rest =>
      (if class u then replacement else [u]) ++ replace_all class replacement rest
  end.

Definition normalizeText (U : UCD) (input : jsstring) : jsstring :=
  replace_all combining_diacritical [] (normalize_NFD U input).

(** *** Constraint *)

Inductive ConstraintId := lipogram | monovocalism | tautogram | alliteration.

Inductive ParameterType := letter | vowel | consonant.

Record ValidationResult := {
  isValid : bool;
  error : option jsstring
}.

Record ParameterSpec := {
  type : ParameterType;
  label : jsstring;
  options : list jsstring
}.

Record Constraint := {
  id : ConstraintId;
  name : jsstring;
  description : jsstring;
  parameter : ParameterSpec;
  validate : jsstring -> jsstring -> ValidationResult
}.

Definition valid : ValidationResult := {| isValid := true; error := None |}.

Definition invalid (message : jsstring) : ValidationResult :=
  {| isValid := false; error := Some message |}.

Section Validators.

Variable U : UCD.

(** *** lipogram *)

Definition lipogram_error (forbiddenLetter : jsstring) : jsstring :=
  js "Lettre interdite détectée : " ++ dquote ++ forbiddenLetter ++ dquote.

Definition lipogram_validate (text param : jsstring) : ValidationResult :=
  let forbiddenLetter := toLowerCase U param in
  let normalizedText := normalizeText U (toLowerCase U text) in
  if includes normalizedText forbiddenLetter
  then invalid (lipogram_error forbiddenLetter)
  else valid.

(** *** monovocalism *)

Definition monovocalism_error (char : jsstring) : jsstring :=
  js "Voyelle non autorisée détectée : " ++ dquote ++ char ++ dquote.

Fixpoint monovocalism_loop (otherVowels chars : list jsstring)
  : ValidationResult :=
  match chars with
  | [] => valid
  | char :: rest =>
      if array_includes otherVowels char
      then invalid (monovocalism_error char)
      else monovocalism_loop otherVowels rest
  end.

Definition monovocalism_validate (text param : jsstring) : ValidationResult :=
  let allowedVowel := toLowerCase U param in
  let otherVowels :=
    filter (fun v => negb (jsstring_eqb v allowedVowel)) VOWELS in
  let normalizedText := normalizeText U (toLowerCase U text) in
  monovocalism_loop otherVowels (string_iterator normalizedText).

(** *** tautogram *)

Definition tautogram_error (word initialLetter : jsstring) : jsstring :=
  js "Le mot " ++ dquote ++ word ++ dquote ++ js " ne commence pas par "
  ++ dquote ++ initialLetter ++ dquote.

Fixpoint tautogram_loop (initialLetter : jsstring) (ws : list jsstring)
  : ValidationResult :=
  match ws with
  | [] => valid
  | word :: rest =>
      let normalizedWord := normalizeText U (toLowerCase U word) in
      if negb (startsWith normalizedWord initialLetter)
      then invalid (tautogram_error word initialLetter)
      else tautogram_loop initialLetter rest
  end.

Definition tautogram_validate (text param : jsstring) : ValidationResult :=
  let ws := words text in
  let initialLetter := toLowerCase U param in
  tautogram_loop initialLetter ws.

(** *** alliteration *)

Definition alliteration_error (word initialConsonant : jsstring) : jsstring :=
  js "Le mot " ++ dquote ++ word ++ dquote
  ++ js " ne commence pas par la consonne " ++ dquote ++ initialConsonant
  ++ dquote.

Fixpoint alliteration_loop (initialConsonant : jsstring) (ws : list jsstring)
  : ValidationResult :=
  match ws with
  | [] => valid
  | word :: rest =>
      let normalizedWord := normalizeText U (toLowerCase U word) in
      if negb (startsWith normalizedWord initialConsonant)
      then invalid (alliteration_error word initialConsonant)
      else alliteration_loop initialConsonant rest
  end.

Definition alliteration_validate (text param : jsstring) : ValidationResult :=
  let ws := words text in
  let initialConsonant := toLowerCase U param in
  alliteration_loop initialConsonant ws.

(** *** CONSTRAINTS *)

Definition CONSTRAINTS : list Constraint :=
  [ {| id := lipogram;
       name := js "Lipogramme";
       description := js "Interdiction d’une lettre donnée.";
       parameter :=
         {| type := letter; label := js "Lettre interdite"; options := ALPHABET |};
       validate := lipogram_validate |};
    {| id := monovocalism;
       name := js "Monovocalisme";
       description := js "Autorisation d’une seule voyelle.";
       parameter :=
         {| type := vowel; label := js "Voyelle autorisée"; options := VOWELS |};
       validate := monovocalism_validate |};
    {| id := tautogram;
       name := js "Tautogramme";
       description := js "Tous les mots doivent commencer par la même lettre.";
       parameter :=
         {| type := letter; label := js "Lettre initiale"; options := ALPHABET |};
       validate := tautogram_validate |};
    {| id := alliteration;
       name := js "Allitération systématique";
       description := js "Tous les mots doivent commencer par la même consonne.";
       parameter :=
         {| type := consonant; label := js "Consonne initiale";
            options := CONSONANTS |};
       validate := alliteration_validate |} ].

End Validators.

(** ** An excerpt of the Unicode Character Database

    The entries of UnicodeData.txt for the blocks Basic Latin and Latin-1
    Supplement (U+0000 to U+00FF) and Combining Diacritical Marks (U+0300 to
    U+036F), and for U+05B0 and U+05B1 (Hebrew points), U+1D157, U+1D15E and
    U+1D165 (musical symbols).  No character of these has a conditional
    mapping in SpecialCasing.txt.  A code point without an entry in a table
    has the default value: it is its own lowercase mapping and its own
    decomposition, and its combining class is 0.  The evaluations below
    apply the excerpt to strings of these code points only. *)

Fixpoint lookup {A : Type} (c : code_point) (table : list (code_point * A))
  : option A :=
  match table with
  | [] => None
  | (k, v) :: rest => if k =? c then Some v else lookup c rest
  end.

(** Simple lowercase mappings (field 13 of UnicodeData.txt). *)
Definition lowercase_table : list (code_point * list code_point) :=
  [(0x0041, [0x0061]); (0x0042, [0x0062]); (0x0043, [0x0063]); (0x0044, [0x0064]);
   (0x0045, [0x0065]); (0x0046, [0x0066]); (0x0047, [0x0067]); (0x0048, [0x0068]);
   (0x0049, [0x0069]); (0x004A, [0x006A]); (0x004B, [0x006B]); (0x004C, [0x006C]);
   (0x004D, [0x006D]); (0x004E, [0x006E]); (0x004F, [0x006F]); (0x0050, [0x0070]);
   (0x0051, [0x0071]); (0x0052, [0x0072]); (0x0053, [0x0073]); (0x0054, [0x0074]);
   (0x0055, [0x0075]); (0x0056, [0x0076]); (0x0057, [0x0077]); (0x0058, [0x0078]);
   (0x0059, [0x0079]); (0x005A, [0x007A]); (0x00C0, [0x00E0]); (0x00C1, [0x00E1]);
   (0x00C2, [0x00E2]); (0x00C3, [0x00E3]); (0x00C4, [0x00E4]); (0x00C5, [0x00E5]);
   (0x00C6, [0x00E6]); (0x00C7, [0x00E7]); (0x00C8, [0x00E8]); (0x00C9, [0x00E9]);
   (0x00CA, [0x00EA]); (0x00CB, [0x00EB]); (0x00CC, [0x00EC]); (0x00CD, [0x00ED]);
   (0x00CE, [0x00EE]); (0x00CF, [0x00EF]); (0x00D0, [0x00F0]); (0x00D1, [0x00F1]);
   (0x00D2, [0x00F2]); (0x00D3, [0x00F3]); (0x00D4, [0x00F4]); (0x00D5, [0x00F5]);
   (0x00D6, [0x00F6]); (0x00D8, [0x00F8]); (0x00D9, [0x00F9]); (0x00DA, [0x00FA]);
   (0x00DB, [0x00FB]); (0x00DC, [0x00FC]); (0x00DD, [0x00FD]); (0x00DE, [0x00FE])].

(** Full canonical decompositions (field 5 of UnicodeData.txt, applied
    recursively). *)
Definition decomposition_table : list (code_point * list code_point) :=
  [(0x00C0, [0x0041; 0x0300]); (0x00C1, [0x0041; 0x0301]); (0x00C2, [0x0041; 0x0302]);
   (0x00C3, [0x0041; 0x0303]); (0x00C4, [0x0041; 0x0308]); (0x00C5, [0x0041; 0x030A]);
   (0x00C7, [0x0043; 0x0327]); (0x00C8, [0x0045; 0x0300]); (0x00C9, [0x0045; 0x0301]);
   (0x00CA, [0x0045; 0x0302]); (0x00CB, [0x0045; 0x0308]); (0x00CC, [0x0049; 0x0300]);
   (0x00CD, [0x0049; 0x0301]); (0x00CE, [0x0049; 0x0302]); (0x00CF, [0x0049; 0x0308]);
   (0x00D1, [0x004E; 0x0303]); (0x00D2, [0x004F; 0x0300]); (0x00D3, [0x004F; 0x0301]);
   (0x00D4, [0x004F; 0x0302]); (0x00D5, [0x004F; 0x0303]); (0x00D6, [0x004F; 0x0308]);
   (0x00D9, [0x0055; 0x0300]); (0x00DA, [0x0055; 0x0301]); (0x00DB, [0x0055; 0x0302]);
   (0x00DC, [0x0055; 0x0308]); (0x00DD, [0x0059; 0x0301]); (0x00E0, [0x0061; 0x0300]);
   (0x00E1, [0x0061; 0x0301]); (0x00E2, [0x0061; 0x0302]); (0x00E3, [0x0061; 0x0303]);
   (0x00E4, [0x0061; 0x0308]); (0x00E5, [0x0061; 0x030A]); (0x00E7, [0x0063; 0x0327]);
   (0x00E8, [0x0065; 0x0300]); (0x00E9, [0x0065; 0x0301]); (0x00EA, [0x0065; 0x0302]);
   (0x00EB, [0x0065; 0x0308]); (0x00EC, [0x0069; 0x0300]); (0x00ED, [0x0069; 0x0301]);
   (0x00EE, [0x0069; 0x0302]); (0x00EF, [0x0069; 0x0308]); (0x00F1, [0x006E; 0x0303]);
   (0x00F2, [0x006F; 0x0300]); (0x00F3, [0x006F; 0x0301]); (0x00F4, [0x006F; 0x0302]);
   (0x00F5, [0x006F; 0x0303]); (0x00F6, [0x006F; 0x0308]); (0x00F9, [0x0075; 0x0300]);
   (0x00FA, [0x0075; 0x0301]); (0x00FB, [0x0075; 0x0302]); (0x00FC, [0x0075; 0x0308]);
   (0x00FD, [0x0079; 0x0301]); (0x00FF, [0x0079; 0x0308]); (0x0340, [0x0300]);
   (0x0341, [0x0301]); (0x0343, [0x0313]); (0x0344, [0x0308; 0x0301]);
   (0x1D15E, [0x1D157; 0x1D165])].

(** Non-zero canonical combining classes (field 3 of UnicodeData.txt), by
    ranges of code points: first, last, class. *)
Definition combining_class_table : list (code_point * code_point * N) :=
  [(0x0300, 0x0314, 230); (0x0315, 0x0315, 232); (0x0316, 0x0319, 220);
   (0x031A, 0x031A, 232); (0x031B, 0x031B, 216); (0x031C, 0x0320, 220);
   (0x0321, 0x0322, 202); (0x0323, 0x0326, 220); (0x0327, 0x0328, 202);
   (0x0329, 0x0333, 220); (0x0334, 0x0338, 1); (0x0339, 0x033C, 220);
   (0x033D, 0x0344, 230); (0x0345, 0x0345, 240); (0x0346, 0x0346, 230);
   (0x0347, 0x0349, 220); (0x034A, 0x034C, 230); (0x034D, 0x034E, 220);
   (0x0350, 0x0352, 230); (0x0353, 0x0356, 220); (0x0357, 0x0357, 230);
   (0x0358, 0x0358, 232); (0x0359, 0x035A, 220); (0x035B, 0x035B, 230);
   (0x035C, 0x035C, 233); (0x035D, 0x035E, 234); (0x035F, 0x035F, 233);
   (0x0360, 0x0361, 234); (0x0362, 0x0362, 233); (0x0363, 0x036F, 230);
   (0x05B0, 0x05B0, 10); (0x05B1, 0x05B1, 11); (0x1D165, 0x1D165, 216)].

Fixpoint lookup_range (c : code_point) (table : list (code_point * code_point * N))
  : N :=
  match table with
  | [] => 0
  | (first, last, class) :: rest =>
      if (first <=? c) && (c <=? last) then class else lookup_range c rest
  end.

(** The code points from [first] on, [count] of them. *)
Definition code_points_from (first : code_point) (count : nat) : list code_point :=
  map (fun k => first + N.of_nat k) (seq 0 count).

(** What is checked of every character of a decomposition of the table: it
    has no entry of its own, is a scalar value and is not U+034F. *)
Definition decomposed (table : list (code_point * list code_point))
    (x : code_point) : bool :=
  match lookup x table with None => true | Some _ => false end
  && ((x <? 0xD800) || ((0xDFFF <? x) && (x <=? 0x10FFFF)))
  && negb (x =? 0x34F).

Definition UCD_excerpt : UCD := {|
  Lowercase_Mapping := fun _ c _ =>
    match lookup c lowercase_table with Some l => l | None => [c] end;
  canonical_decomposition := fun c =>
    match lookup c decomposition_table with Some l => l | None => [c] end;
  ccc := fun c => lookup_range c combining_class_table
|}.

(** ** Vocabulary of the specification *)

(** [searchString] occurs in [s]. *)
Definition substring (searchString s : jsstring) : Prop :=
  exists before after, s = before ++ searchString ++ after.

(** [s] begins with [searchString]. *)
Definition prefix (searchString s : jsstring) : Prop :=
  exists rest, s = searchString ++ rest.

(** What a validator looks for finds nothing: the forbidden letter does not
    occur (lipogram), no character is a vowel other than the allowed one
    (monovocalism), every word begins with the letter (tautogram,
    alliteration); all of it on lowercased, normalized text and with the
    lowercased parameter. *)
Definition no_match (U : UCD) (i : ConstraintId) (text param : jsstring) : Prop :=
  match i with
  | lipogram =>
      ~ substring (toLowerCase U param) (normalizeText U (toLowerCase U text))
  | monovocalism =>
      Forall (fun char => In char VOWELS -> char = toLowerCase U param)
             (string_iterator (normalizeText U (toLowerCase U text)))
  | tautogram | alliteration =>
      Forall (fun word =>
                prefix (toLowerCase U param) (normalizeText U (toLowerCase U word)))
             (words text)
  end.

(** A decomposed sequence in canonical order: no character is followed
    by one of a smaller, non-zero combining class. *)
Fixpoint canonically_ordered (U : UCD) (l : list code_point) : Prop :=
  match l with
  | [] => True
  | a :: rest =>
      match rest with
      | [] => True
      | b :: _ => ccc U b = 0 \/ ccc U a <= ccc U b
      end /\ canonically_ordered U rest
  end.

(** A character of non-zero canonical combining class.  Only combining marks
    (General_Category M) have one. *)
Definition nonstarter (U : UCD) (cp : code_point) : Prop := ccc U cp <> 0.

(** ** Facts of the Unicode Character Database the proofs use *)

(** The lowercase of a Basic Latin character. *)
Definition basic_latin_lowercase (c : code_point) : code_point :=
  if (0x41 <=? c) && (c <=? 0x5A) then c + 0x20 else c.

(** UnicodeData.txt, Basic Latin: A to Z map to a to z, every other character
    to itself, whatever the context. *)
Definition basic_latin_case (U : UCD) : Prop :=
  forall before c after,
    c <= 0x7F -> Lowercase_Mapping U before c after = [basic_latin_lowercase c].

(** Of canonical decompositions and combining classes:
    - a full decomposition is made of characters that do not decompose;
    - it is made of scalar values;
    - U+034F COMBINING GRAPHEME JOINER is the decomposition of no other
      character;
    - the characters of the block Combining Diacritical Marks have a non-zero
      combining class, U+034F excepted (its class is 0). *)
Record decomposition_facts (U : UCD) : Prop := {
  decomposition_stable :
    forall c x, In x (canonical_decomposition U c) ->
                canonical_decomposition U x = [x];
  decomposition_scalar :
    forall c x, scalar_value c -> In x (canonical_decomposition U c) ->
                scalar_value x;
  joiner_not_decomposed :
    forall c, In 0x34F (canonical_decomposition U c) -> c = 0x34F;
  diacritical_nonstarter :
    forall c, combining_diacritical c = true -> c <> 0x34F -> ccc U c <> 0
}.

(** The code points the excerpt has the entries of. *)
Definition covered (c : code_point) : bool :=
  (c <=? 0xFF) || ((0x300 <=? c) && (c <=? 0x36F))
  || existsb (N.eqb c) [0x5B0; 0x5B1; 0x1D157; 0x1D15E; 0x1D165].

(** A database with the entries of the excerpt, as the Unicode Character
    Database is: on the code points the excerpt covers it has the same
    lowercase mappings, whatever the context, the same decompositions and the
    same combining classes. *)
Record has_excerpt (U : UCD) : Prop := {
  excerpt_lowercase :
    forall before c after, covered c = true ->
      Lowercase_Mapping U before c after
      = Lowercase_Mapping UCD_excerpt before c after;
  excerpt_decomposition :
    forall c, covered c = true ->
      canonical_decomposition U c = canonical_decomposition UCD_excerpt c;
  excerpt_class :
    forall c, covered c = true -> ccc U c = ccc UCD_excerpt c
}.

(** A string of covered code points whose lowercase is one as well. *)
Definition in_excerpt (s : jsstring) : bool :=
  forallb covered (StringToCodePoints s)
  && forallb covered (StringToCodePoints (toLowerCase UCD_excerpt s)).

(** ** Vocabulary of the further properties *)

(** A string of Basic Latin characters (U+0000 to U+007F). *)
Definition basic_latin (s : jsstring) : Prop := Forall (fun u => u <= 0x7F) s.

(** What the tokenizer keeps together: a word character or an apostrophe;
    the hyphen is of the class but does not make a word on its own. *)
Definition word_unit (u : code_unit) : bool := WORD_CLASS u && negb (u =? 0x2D).

(** The shape of a token: not empty, made of the class [[\w'-]], and not
    ending in a hyphen. *)
Definition token (w : jsstring) : Prop :=
  w <> [] /\ Forall (fun u => WORD_CLASS u = true) w /\ last w 0 <> 0x2D.

(** A stretch of text between two tokens: it holds no word character and no
    apostrophe. *)
Definition gap (g : jsstring) : Prop := Forall (fun u => word_unit u = false) g.

(** The text made of a gap before each word, the word, and a last gap. *)
Fixpoint weave (befores ws : list jsstring) (final : jsstring) : jsstring :=
  match befores, ws with
  | g :: befores', w :: ws' => g ++ w ++ weave befores' ws' final
  | _, _ => final
  end.

(** A gap a word can follow: it is empty or ends with a code unit outside the
    class [[\w'-]]. *)
Definition boundary (g : jsstring) : Prop :=
  g = [] \/ WORD_CLASS (last g 0) = false.

(** What a character becomes when it is lowercased and normalized on its
    own, by the entries of the excerpt. *)
Definition base_letters (u : code_unit) : jsstring :=
  normalizeText UCD_excerpt (toLowerCase UCD_excerpt [u]).

Ltac basic_latin_literal :=
  apply Forall_forall; intros ? Hx; vm_compute in Hx;
  repeat (destruct Hx as [<- | Hx]; [apply N.leb_le; reflexivity|]);
  destruct Hx.

(** ** Strings *)

Lemma ALPHABET_letters :
  ALPHABET = map (fun c => [c]) [0x61; 0x62; 0x63; 0x64; 0x65; 0x66; 0x67; 0x68;
    0x69; 0x6A; 0x6B; 0x6C; 0x6D; 0x6E; 0x6F; 0x70; 0x71; 0x72; 0x73; 0x74; 0x75;
    0x76; 0x77; 0x78; 0x79; 0x7A].
Proof. reflexivity. Qed.

Lemma startsWith_prefix (s p : jsstring) :
  startsWith s p = true <-> prefix p s.
Proof.
  revert s; induction p as [|a p IH]; intros s; simpl.
  - split; [intros _; exists s; reflexivity | reflexivity].
  - destruct s as [|b s].
    + split; [discriminate | intros [r E]; discriminate].
    + rewrite andb_true_iff, N.eqb_eq, IH. split.
      * intros [-> [r ->]]. exists r. reflexivity.
      * intros [r E]. injection E as -> ->. split; [reflexivity | exists r; reflexivity].
Qed.

Lemma includes_substring (s p : jsstring) :
  includes s p = true <-> substring p s.
Proof.
  induction s as [|b s IH].
  - simpl. rewrite orb_false_r, startsWith_prefix. split.
    + intros [r E]. exists [], r. exact E.
    + intros [pre [post E]]. destruct pre; simpl in E.
      * exists post. exact E.
      * discriminate.
  - change (includes (b :: s) p) with (startsWith (b :: s) p || includes s p).
    rewrite orb_true_iff, startsWith_prefix, IH. split.
    + intros [[r E] | [pre [post E]]].
      * exists [], r. exact E.
      * exists (b :: pre), post. simpl. rewrite E. reflexivity.
    + intros [pre [post E]]. destruct pre as [|b' pre]; simpl in E.
      * left. exists post. exact E.
      * right. injection E as _ E. exists pre, post. exact E.
Qed.

Lemma jsstring_eqb_eq (a b : jsstring) : jsstring_eqb a b = true <-> a = b.
Proof.
  unfold jsstring_eqb. destruct (list_eq_dec N.eq_dec a b); split; congruence.
Qed.

Lemma replace_all_filter (class : code_unit -> bool) (s : jsstring) :
  replace_all class [] s = filter (fun u => negb (class u)) s.
Proof.
  induction s as [|u s IH]; simpl; [reflexivity|].
  destruct (class u); simpl; rewrite IH; reflexivity.
Qed.

Lemma toLowerCase_empty (U : UCD) : toLowerCase U [] = [].
Proof. reflexivity. Qed.

Lemma normalizeText_empty (U : UCD) : normalizeText U [] = [].
Proof. reflexivity. Qed.

Lemma toLowerCase_basic_latin (U : UCD) (c : code_unit) :
  basic_latin_case U -> c <= 0x7F -> toLowerCase U [c] = [basic_latin_lowercase c].
Proof.
  intros HU Hc. unfold toLowerCase. simpl. rewrite HU by exact Hc. simpl.
  rewrite app_nil_r. unfold UTF16EncodeCodePoint.
  assert (basic_latin_lowercase c <= 0xFFFF) as H.
  { unfold basic_latin_lowercase.
    destruct ((0x41 <=? c) && (c <=? 0x5A)); lia. }
  apply N.leb_le in H. rewrite H. reflexivity.
Qed.

Lemma includes_empty (s : jsstring) : includes s [] = true.
Proof. destruct s; reflexivity. Qed.

Lemma basic_latin_lowercase_upper (c : code_point) :
  0x41 <= c <= 0x5A ->
  basic_latin_lowercase c = c + 0x20
  /\ basic_latin_lowercase (c + 0x20) = c + 0x20.
Proof.
  intros [H1 H2]. unfold basic_latin_lowercase.
  apply N.leb_le in H1 as E1. apply N.leb_le in H2 as E2. rewrite E1, E2. simpl.
  split; [reflexivity|].
  assert ((c + 0x20 <=? 0x5A) = false) as E3 by (apply N.leb_gt; lia).
  rewrite E3, andb_false_r. reflexivity.
Qed.

(** ** The loops of the validators *)

Section Loops.

Variable U : UCD.

Lemma tautogram_loop_valid (initialLetter : jsstring) (ws : list jsstring) :
  isValid (tautogram_loop U initialLetter ws) = true <->
  Forall (fun word => prefix initialLetter (normalizeText U (toLowerCase U word))) ws.
Proof.
  induction ws as [|word rest IH]; simpl.
  - split; [constructor | reflexivity].
  - destruct (startsWith (normalizeText U (toLowerCase U word)) initialLetter) eqn:E;
      simpl.
    + rewrite IH. split.
      * intros H. constructor; [apply startsWith_prefix; exact E | exact H].
      * intros H. inversion H; assumption.
    + split; [discriminate|]. intros H. inversion H as [|? ? Hw _]; subst.
      apply startsWith_prefix in Hw. congruence.
Qed.

(** The two loops stop at the same word, or both run to the end. *)
Lemma alliteration_loop_tautogram_loop (p : jsstring) (ws : list jsstring) :
  (tautogram_loop U p ws = valid /\ alliteration_loop U p ws = valid) \/
  exists word,
    In word ws /\
    tautogram_loop U p ws = invalid (tautogram_error word p) /\
    alliteration_loop U p ws = invalid (alliteration_error word p).
Proof.
  induction ws as [|word rest IH]; simpl.
  - left. split; reflexivity.
  - destruct (startsWith (normalizeText U (toLowerCase U word)) p); simpl.
    + destruct IH as [IH | [w [Hin [Ht Ha]]]]; [left; exact IH|].
      right. exists w. repeat split; auto.
    + right. exists word. repeat split; auto.
Qed.

Lemma alliteration_loop_valid (p : jsstring) (ws : list jsstring) :
  isValid (alliteration_loop U p ws) = isValid (tautogram_loop U p ws).
Proof.
  destruct (alliteration_loop_tautogram_loop p ws) as [[-> ->] | [w [_ [-> ->]]]];
    reflexivity.
Qed.

Lemma monovocalism_loop_valid (otherVowels chars : list jsstring) :
  isValid (monovocalism_loop otherVowels chars) = true <->
  Forall (fun char => array_includes otherVowels char = false) chars.
Proof.
  induction chars as [|char rest IH]; simpl.
  - split; [constructor | reflexivity].
  - destruct (array_includes otherVowels char) eqn:E; simpl.
    + split; [discriminate|]. intros H. inversion H; congruence.
    + rewrite IH. split.
      * intros H. constructor; assumption.
      * intros H. inversion H; assumption.
Qed.

Lemma otherVowels_includes (allowedVowel char : jsstring) :
  array_includes
    (filter (fun v => negb (jsstring_eqb v allowedVowel)) VOWELS) char = false <->
  (In char VOWELS -> char = allowedVowel).
Proof.
  unfold array_includes. split.
  - intros H Hin.
    destruct (list_eq_dec N.eq_dec char allowedVowel) as [E | NE]; [exact E|].
    exfalso.
    assert (existsb (jsstring_eqb char)
              (filter (fun v => negb (jsstring_eqb v allowedVowel)) VOWELS) = true)
      as H1; [|congruence].
    apply existsb_exists. exists char. split; [|apply jsstring_eqb_eq; reflexivity].
    apply filter_In. split; [exact Hin|].
    destruct (jsstring_eqb char allowedVowel) eqn:E; [|reflexivity].
    apply jsstring_eqb_eq in E. contradiction.
  - intros H.
    destruct (existsb (jsstring_eqb char) _) eqn:E; [|reflexivity].
    apply existsb_exists in E. destruct E as [v [Hv Ev]].
    apply jsstring_eqb_eq in Ev. subst v.
    apply filter_In in Hv. destruct Hv as [Hin Hne].
    rewrite (proj2 (jsstring_eqb_eq char allowedVowel) (H Hin)) in Hne.
    discriminate.
Qed.

End Loops.

(** ** UTF-16 *)

Lemma StringToCodePoints_not_leading (u : code_unit) (s : jsstring) :
  is_leading_surrogate u = false ->
  StringToCodePoints (u :: s) = u :: StringToCodePoints s.
Proof. intros H. destruct s; simpl; [reflexivity|]. rewrite H. reflexivity. Qed.

Lemma StringToCodePoints_pair (cp : code_point) (s : jsstring) :
  0xFFFF < cp -> cp <= 0x10FFFF ->
  StringToCodePoints (UTF16EncodeCodePoint cp ++ s) = cp :: StringToCodePoints s.
Proof.
  intros H1 H2. unfold UTF16EncodeCodePoint.
  apply N.leb_gt in H1 as E. rewrite E.
  pose proof (N.div_mod (cp - 0x10000) 0x400 ltac:(discriminate)) as Hdm.
  pose proof (N.mod_lt (cp - 0x10000) 0x400 ltac:(discriminate)) as Hr.
  assert ((cp - 0x10000) / 0x400 < 0x400) as Hq.
  { apply N.Div0.div_lt_upper_bound. lia. }
  set (q := (cp - 0x10000) / 0x400) in *.
  set (r := (cp - 0x10000) mod 0x400) in *.
  cbn [app StringToCodePoints].
  assert (is_leading_surrogate (q + 0xD800) = true) as ->.
  { unfold is_leading_surrogate. apply andb_true_iff.
    split; apply N.leb_le; lia. }
  assert (is_trailing_surrogate (r + 0xDC00) = true) as ->.
  { unfold is_trailing_surrogate. apply andb_true_iff.
    split; apply N.leb_le; lia. }
  cbn [andb]. f_equal. unfold UTF16SurrogatePairToCodePoint. lia.
Qed.

Lemma CodePointsToString_cons (cp : code_point) (l : list code_point) :
  CodePointsToString (cp :: l) = UTF16EncodeCodePoint cp ++ CodePointsToString l.
Proof. reflexivity. Qed.

(** Decoding undoes encoding on scalar values. *)
Lemma StringToCodePoints_CodePointsToString (l : list code_point) :
  Forall scalar_value l -> StringToCodePoints (CodePointsToString l) = l.
Proof.
  induction 1 as [|cp l Hcp _ IH]; [reflexivity|].
  rewrite CodePointsToString_cons.
  destruct (N.le_gt_cases cp 0xFFFF) as [Hle | Hgt].
  - unfold UTF16EncodeCodePoint. apply N.leb_le in Hle as E. rewrite E.
    cbn [app]. rewrite StringToCodePoints_not_leading, IH; [reflexivity|].
    unfold is_leading_surrogate. apply andb_false_iff.
    destruct Hcp as [Hcp | [Hcp _]]; [left | right]; apply N.leb_gt; lia.
  - rewrite StringToCodePoints_pair, IH; [reflexivity | exact Hgt |].
    destruct Hcp as [Hcp | [_ Hcp]]; lia.
Qed.

(** A decoded code point is a code unit of the string or a supplementary
    code point. *)
Lemma StringToCodePoints_In (s : jsstring) (cp : code_point) :
  In cp (StringToCodePoints s) -> In cp s \/ 0x10000 <= cp.
Proof.
  enough ((In cp (StringToCodePoints s) -> In cp s \/ 0x10000 <= cp) /\
          (forall u, In cp (StringToCodePoints (u :: s)) ->
                     In cp (u :: s) \/ 0x10000 <= cp)) as H by apply H.
  induction s as [|v s [IH1 IH2]].
  - split; [intros [] | intros u H; left; exact H].
  - split; [apply IH2|]. intros u.
    cbn [StringToCodePoints].
    destruct (is_leading_surrogate u && is_trailing_surrogate v).
    + intros [<- | H].
      * right. unfold UTF16SurrogatePairToCodePoint. lia.
      * destruct (IH1 H) as [H1 | H1]; [left; right; right; exact H1 | right; exact H1].
    + intros [<- | H]; [left; left; reflexivity|].
      destruct (IH2 v H) as [H1 | H1]; [left; right; exact H1 | right; exact H1].
Qed.

(** Removing the diacritical block from the code units is removing it from
    the code points: no surrogate is in the block. *)
Lemma filter_CodePointsToString (l : list code_point) :
  filter (fun u => negb (combining_diacritical u)) (CodePointsToString l)
  = CodePointsToString (filter (fun cp => negb (combining_diacritical cp)) l).
Proof.
  assert (forall u, 0x36F < u -> negb (combining_diacritical u) = true) as Hout.
  { intros u Hu. unfold combining_diacritical.
    assert ((u <=? 0x36F) = false) as -> by (apply N.leb_gt; exact Hu).
    rewrite andb_false_r. reflexivity. }
  induction l as [|cp l IH]; [reflexivity|].
  rewrite CodePointsToString_cons, filter_app, IH. cbn [filter].
  destruct (cp <=? 0xFFFF) eqn:E.
  - unfold UTF16EncodeCodePoint at 1. rewrite E. cbn [filter].
    destruct (negb (combining_diacritical cp)); [|reflexivity].
    rewrite CodePointsToString_cons. unfold UTF16EncodeCodePoint at 1.
    rewrite E. reflexivity.
  - apply N.leb_gt in E. rewrite (Hout cp) by lia.
    rewrite CodePointsToString_cons. f_equal.
    unfold UTF16EncodeCodePoint. apply N.leb_gt in E. rewrite E.
    generalize ((cp - 0x10000) / 0x400) ((cp - 0x10000) mod 0x400).
    intros q r. cbn [filter]. rewrite (Hout (q + 0xD800)), (Hout (r + 0xDC00)) by lia.
    reflexivity.
Qed.

(** ** Canonical order *)

Section CanonicalOrder.

Variable U : UCD.

Lemma place_In (c x : code_point) (l : list code_point) :
  In x (place U c l) -> x = c \/ In x l.
Proof.
  induction l as [|d l IH]; simpl.
  - intros [<- | []]. left. reflexivity.
  - destruct ((0 <? ccc U d) && (ccc U d <? ccc U c)).
    + intros [<- | H]; [right; left; reflexivity|].
      destruct (IH H) as [-> | H1]; [left; reflexivity | right; right; exact H1].
    + intros [<- | H]; [left; reflexivity | right; exact H].
Qed.

Lemma canonical_order_In (x : code_point) (l : list code_point) :
  In x (canonical_order U l) -> In x l.
Proof.
  induction l as [|c l IH]; simpl; [tauto|].
  intros H. apply place_In in H. destruct H as [-> | H]; [left | right]; auto.
Qed.

Lemma NFD_In (x : code_point) (l : list code_point) :
  In x (NFD U l) -> exists c, In c l /\ In x (canonical_decomposition U c).
Proof.
  intros H. apply canonical_order_In in H. apply in_flat_map in H. exact H.
Qed.

Lemma place_ordered (c : code_point) (l : list code_point) :
  canonically_ordered U l -> canonically_ordered U (place U c l).
Proof.
  induction l as [|d l IH]; intros Hl.
  - simpl. tauto.
  - cbn [place].
    destruct ((0 <? ccc U d) && (ccc U d <? ccc U c)) eqn:E.
    + apply andb_true_iff in E. destruct E as [E1 E2].
      apply N.ltb_lt in E1, E2.
      destruct Hl as [Hd Hl]. specialize (IH Hl).
      split; [|exact IH].
      destruct l as [|e l]; cbn [place].
      * right. lia.
      * destruct ((0 <? ccc U e) && (ccc U e <? ccc U c)); [exact Hd | right; lia].
    + split; [|exact Hl].
      apply andb_false_iff in E.
      destruct E as [E | E]; [left | right]; apply N.ltb_ge in E; lia.
Qed.

Lemma canonical_order_ordered (l : list code_point) :
  canonically_ordered U (canonical_order U l).
Proof.
  induction l as [|c l IH]; simpl; [exact I | apply place_ordered, IH].
Qed.

(** A sequence in canonical order is left as it is. *)
Lemma canonical_order_fixed (l : list code_point) :
  canonically_ordered U l -> canonical_order U l = l.
Proof.
  induction l as [|c l IH]; [reflexivity|].
  intros [Hc Hl]. cbn [canonical_order]. rewrite (IH Hl).
  destruct l as [|d l]; [reflexivity|]. cbn [place].
  assert ((0 <? ccc U d) && (ccc U d <? ccc U c) = false) as ->; [|reflexivity].
  apply andb_false_iff.
  destruct Hc as [Hc | Hc]; [left | right]; apply N.ltb_ge; lia.
Qed.

(** Removing characters of non-zero combining class keeps the order: the
    first character kept after [a] is no smaller than those removed before
    it. *)
Lemma filter_ordered_head (keep : code_point -> bool) (l : list code_point) :
  (forall x, In x l -> keep x = false -> ccc U x <> 0) ->
  forall a, canonically_ordered U (a :: l) ->
  match filter keep l with
  | [] => True
  | b :: _ => ccc U b = 0 \/ ccc U a <= ccc U b
  end.
Proof.
  induction l as [|d l IH]; intros Hrm a [Ha Hl]; [exact I|].
  cbn [filter]. destruct (keep d) eqn:E; [exact Ha|].
  assert (ccc U d <> 0) as Hd by (apply Hrm; [left; reflexivity | exact E]).
  assert (forall x, In x l -> keep x = false -> ccc U x <> 0) as Hrm'
    by (intros x Hx; apply Hrm; right; exact Hx).
  specialize (IH Hrm' d Hl).
  destruct (filter keep l) as [|b ?]; [exact I|].
  destruct IH as [IH | IH]; [left; exact IH | right; lia].
Qed.

Lemma filter_ordered (keep : code_point -> bool) (l : list code_point) :
  (forall x, In x l -> keep x = false -> ccc U x <> 0) ->
  canonically_ordered U l -> canonically_ordered U (filter keep l).
Proof.
  induction l as [|a l IH]; intros Hrm Hl; [exact I|].
  assert (forall x, In x l -> keep x = false -> ccc U x <> 0) as Hrm'
    by (intros x Hx; apply Hrm; right; exact Hx).
  pose proof (filter_ordered_head keep l Hrm' a Hl) as Hh.
  destruct Hl as [_ Hl]. specialize (IH Hrm' Hl).
  cbn [filter]. destruct (keep a); [|exact IH].
  split; [|exact IH].
  destruct (filter keep l); [exact I | exact Hh].
Qed.

Lemma flat_map_fixed (l : list code_point) :
  (forall x, In x l -> canonical_decomposition U x = [x]) ->
  flat_map (canonical_decomposition U) l = l.
Proof.
  induction l as [|c l IH]; intros H; [reflexivity|].
  cbn [flat_map]. rewrite (H c (or_introl eq_refl)), IH; [reflexivity|].
  intros x Hx. apply H. right. exact Hx.
Qed.

(** A sequence of characters that do not decompose, in canonical order, is
    its own Normalization Form D. *)
Lemma NFD_fixed (l : list code_point) :
  (forall x, In x l -> canonical_decomposition U x = [x]) ->
  canonically_ordered U l -> NFD U l = l.
Proof.
  intros Hd Ho. unfold NFD. rewrite flat_map_fixed by exact Hd.
  apply canonical_order_fixed, Ho.
Qed.

Lemma normalizeText_code_points (s : jsstring) :
  normalizeText U s
  = CodePointsToString
      (filter (fun cp => negb (combining_diacritical cp))
              (NFD U (StringToCodePoints s))).
Proof.
  unfold normalizeText, normalize_NFD.
  rewrite replace_all_filter. apply filter_CodePointsToString.
Qed.

End CanonicalOrder.

(** ** The excerpt has the facts *)

Lemma code_points_from_In (first : code_point) (count : nat) (c : code_point) :
  first <= c -> c < first + N.of_nat count -> In c (code_points_from first count).
Proof.
  intros H1 H2. unfold code_points_from. apply in_map_iff.
  exists (N.to_nat (c - first)). split; [lia|]. apply in_seq. lia.
Qed.

Lemma UCD_excerpt_basic_latin_case : basic_latin_case UCD_excerpt.
Proof.
  intros before c after Hc.
  assert (forallb (fun k => match Lowercase_Mapping UCD_excerpt [] k [] with
                            | [l] => l =? basic_latin_lowercase k
                            | _ => false
                            end) (code_points_from 0 128) = true) as H
    by (vm_compute; reflexivity).
  rewrite forallb_forall in H.
  specialize (H c (code_points_from_In 0 128 c (N.le_0_l c) ltac:(simpl; lia))).
  change (Lowercase_Mapping UCD_excerpt before c after)
    with (Lowercase_Mapping UCD_excerpt [] c []).
  destruct (Lowercase_Mapping UCD_excerpt [] c []) as [|l [|]]; try discriminate.
  apply N.eqb_eq in H. subst l. reflexivity.
Qed.

Lemma lookup_In {A : Type} (c : code_point) (table : list (code_point * A)) (v : A) :
  lookup c table = Some v -> In (c, v) table.
Proof.
  induction table as [|[k w] table IH]; simpl; [discriminate|].
  destruct (k =? c) eqn:E.
  - intros [= ->]. apply N.eqb_eq in E. subst k. left. reflexivity.
  - intros H. right. apply IH, H.
Qed.

(** A character of a decomposition of the excerpt has no decomposition of its
    own, is a scalar value and is not U+034F. *)
Lemma UCD_excerpt_decomposition_In (c x : code_point) :
  In x (canonical_decomposition UCD_excerpt c) ->
  (x = c /\ lookup c decomposition_table = None) \/
  (lookup x decomposition_table = None /\ scalar_value x /\ x <> 0x34F).
Proof.
  cbn [canonical_decomposition UCD_excerpt].
  destruct (lookup c decomposition_table) as [d|] eqn:E.
  - intros Hx. right. apply lookup_In in E.
    assert (forallb (fun entry => forallb (decomposed decomposition_table) (snd entry))
                    decomposition_table = true) as H by (vm_compute; reflexivity).
    rewrite forallb_forall in H. specialize (H _ E). cbn [snd] in H.
    rewrite forallb_forall in H. specialize (H _ Hx).
    unfold decomposed in H. apply andb_true_iff in H. destruct H as [H H3].
    apply andb_true_iff in H. destruct H as [H1 H2].
    split; [|split].
    + destruct (lookup x decomposition_table); [discriminate | reflexivity].
    + unfold scalar_value. apply orb_true_iff in H2.
      destruct H2 as [H2 | H2]; [left; apply N.ltb_lt, H2 | right].
      apply andb_true_iff in H2. destruct H2 as [H2 H2'].
      split; [apply N.ltb_lt, H2 | apply N.leb_le, H2'].
    + intros ->. discriminate.
  - intros [<- | []]. left. split; reflexivity.
Qed.

Lemma UCD_excerpt_decomposition_facts : decomposition_facts UCD_excerpt.
Proof.
  assert (forall x, lookup x decomposition_table = None ->
                    canonical_decomposition UCD_excerpt x = [x]) as Hnone.
  { intros x E. cbn [canonical_decomposition UCD_excerpt]. rewrite E. reflexivity. }
  constructor.
  - intros c x Hx.
    destruct (UCD_excerpt_decomposition_In c x Hx) as [[-> E] | [E _]];
      apply Hnone, E.
  - intros c x Hc Hx.
    destruct (UCD_excerpt_decomposition_In c x Hx) as [[-> _] | [_ [H _]]];
      assumption.
  - intros c Hx.
    destruct (UCD_excerpt_decomposition_In c _ Hx) as [[-> _] | [_ [_ H]]];
      [reflexivity | contradiction].
  - intros c Hc Hj. unfold combining_diacritical in Hc.
    apply andb_true_iff in Hc. destruct Hc as [H1 H2].
    apply N.leb_le in H1, H2.
    assert (forallb (fun k => (k =? 0x34F) || negb (ccc UCD_excerpt k =? 0))
                    (code_points_from 0x300 112) = true) as H
      by (vm_compute; reflexivity).
    rewrite forallb_forall in H.
    specialize (H c (code_points_from_In 0x300 112 c H1 ltac:(simpl; lia))).
    apply orb_true_iff in H. destruct H as [H | H].
    + apply N.eqb_eq in H. contradiction.
    + intros E. rewrite E in H. discriminate.
Qed.

Lemma UCD_excerpt_has_excerpt : has_excerpt UCD_excerpt.
Proof. constructor; reflexivity. Qed.

Lemma covered_decomposition (c : code_point) :
  covered c = true ->
  forallb covered (canonical_decomposition UCD_excerpt c) = true.
Proof.
  intros Hc. cbn [canonical_decomposition UCD_excerpt].
  destruct (lookup c decomposition_table) as [d|] eqn:E.
  - apply lookup_In in E.
    assert (forallb (fun entry => forallb covered (snd entry)) decomposition_table
            = true) as H by (vm_compute; reflexivity).
    rewrite forallb_forall in H. exact (H _ E).
  - cbn [forallb]. rewrite Hc. reflexivity.
Qed.

(** ** A database with the entries of the excerpt

    On strings of covered code points it gives what the excerpt gives. *)

Section Excerpt.

Variable U : UCD.
Hypothesis HU : has_excerpt U.

Lemma toLowercase_from_excerpt (X before : list code_point) :
  forallb covered X = true ->
  toLowercase_from U before X = toLowercase_from UCD_excerpt before X.
Proof.
  revert before. induction X as [|C X IH]; intros before H; [reflexivity|].
  cbn [forallb] in H. apply andb_true_iff in H. destruct H as [HC HX].
  cbn [toLowercase_from].
  rewrite (excerpt_lowercase U HU) by exact HC. rewrite IH by exact HX.
  reflexivity.
Qed.

Lemma toLowerCase_excerpt (s : jsstring) :
  forallb covered (StringToCodePoints s) = true ->
  toLowerCase U s = toLowerCase UCD_excerpt s.
Proof.
  intros H. unfold toLowerCase. rewrite toLowercase_from_excerpt by exact H.
  reflexivity.
Qed.

Lemma place_excerpt (c : code_point) (l : list code_point) :
  covered c = true -> forallb covered l = true ->
  place U c l = place UCD_excerpt c l.
Proof.
  intros Hc. induction l as [|d l IH]; intros Hl; [reflexivity|].
  cbn [forallb] in Hl. apply andb_true_iff in Hl. destruct Hl as [Hd Hl].
  cbn [place].
  rewrite (excerpt_class U HU c Hc), (excerpt_class U HU d Hd), (IH Hl).
  reflexivity.
Qed.

Lemma canonical_order_excerpt (l : list code_point) :
  forallb covered l = true ->
  canonical_order U l = canonical_order UCD_excerpt l.
Proof.
  induction l as [|c l IH]; intros Hl; [reflexivity|].
  cbn [forallb] in Hl. apply andb_true_iff in Hl. destruct Hl as [Hc Hl].
  cbn [canonical_order]. rewrite (IH Hl). apply place_excerpt; [exact Hc|].
  apply forallb_forall. intros x Hx. apply canonical_order_In in Hx.
  rewrite forallb_forall in Hl. apply Hl, Hx.
Qed.

Lemma NFD_excerpt (l : list code_point) :
  forallb covered l = true -> NFD U l = NFD UCD_excerpt l.
Proof.
  intros Hl. unfold NFD.
  assert (flat_map (canonical_decomposition U) l
          = flat_map (canonical_decomposition UCD_excerpt) l
          /\ forallb covered (flat_map (canonical_decomposition UCD_excerpt) l)
             = true) as [-> H].
  { induction l as [|c l IH]; [split; reflexivity|].
    cbn [forallb] in Hl. apply andb_true_iff in Hl. destruct Hl as [Hc Hl].
    destruct (IH Hl) as [IH1 IH2]. cbn [flat_map].
    rewrite (excerpt_decomposition U HU c Hc), IH1, forallb_app,
      (covered_decomposition c Hc), IH2.
    split; reflexivity. }
  apply canonical_order_excerpt, H.
Qed.

Lemma normalizeText_excerpt (s : jsstring) :
  forallb covered (StringToCodePoints s) = true ->
  normalizeText U s = normalizeText UCD_excerpt s.
Proof.
  intros H. unfold normalizeText, normalize_NFD. rewrite NFD_excerpt by exact H.
  reflexivity.
Qed.

Lemma toLowerCase_in_excerpt (s : jsstring) :
  in_excerpt s = true -> toLowerCase U s = toLowerCase UCD_excerpt s.
Proof.
  intros H. apply andb_true_iff in H. apply toLowerCase_excerpt, H.
Qed.

Lemma normalizeText_in_excerpt (s : jsstring) :
  in_excerpt s = true ->
  normalizeText U (toLowerCase U s)
  = normalizeText UCD_excerpt (toLowerCase UCD_excerpt s).
Proof.
  intros H. rewrite (toLowerCase_in_excerpt s H).
  apply andb_true_iff in H. apply normalizeText_excerpt, H.
Qed.

Lemma lipogram_validate_excerpt (text param : jsstring) :
  in_excerpt text = true -> in_excerpt param = true ->
  lipogram_validate U text param = lipogram_validate UCD_excerpt text param.
Proof.
  intros Ht Hp. unfold lipogram_validate.
  rewrite (normalizeText_in_excerpt text Ht), (toLowerCase_in_excerpt param Hp).
  reflexivity.
Qed.

Lemma monovocalism_validate_excerpt (text param : jsstring) :
  in_excerpt text = true -> in_excerpt param = true ->
  monovocalism_validate U text param
  = monovocalism_validate UCD_excerpt text param.
Proof.
  intros Ht Hp. unfold monovocalism_validate.
  rewrite (normalizeText_in_excerpt text Ht), (toLowerCase_in_excerpt param Hp).
  reflexivity.
Qed.

Lemma tautogram_validate_excerpt (text param : jsstring) :
  forallb in_excerpt (words text) = true -> in_excerpt param = true ->
  tautogram_validate U text param = tautogram_validate UCD_excerpt text param.
Proof.
  intros Ht Hp. unfold tautogram_validate.
  rewrite (toLowerCase_in_excerpt param Hp).
  induction (words text) as [|word ws IH]; [reflexivity|].
  cbn [forallb] in Ht. apply andb_true_iff in Ht. destruct Ht as [Hw Ht].
  cbn [tautogram_loop]. rewrite (normalizeText_in_excerpt word Hw), (IH Ht).
  reflexivity.
Qed.

Lemma alliteration_validate_excerpt (text param : jsstring) :
  forallb in_excerpt (words text) = true -> in_excerpt param = true ->
  alliteration_validate U text param
  = alliteration_validate UCD_excerpt text param.
Proof.
  intros Ht Hp. unfold alliteration_validate.
  rewrite (toLowerCase_in_excerpt param Hp).
  induction (words text) as [|word ws IH]; [reflexivity|].
  cbn [forallb] in Ht. apply andb_true_iff in Ht. destruct Ht as [Hw Ht].
  cbn [alliteration_loop]. rewrite (normalizeText_in_excerpt word Hw), (IH Ht).
  reflexivity.
Qed.

End Excerpt.

(** ** The claims *)

(** C1, as the specification states it, fails: the lipogram called with "ch",
    which its options do not list, rejects "Le chat"; a parameter outside the
    options is not always treated as valid. *)
Lemma C1_out_of_domain_parameter_rejected :
  ~ (forall c, In c (CONSTRAINTS UCD_excerpt) ->
     forall text param, ~ In param (options (parameter c)) ->
     isValid (validate c text param) = true).
Proof.
  intros H.
  specialize (H _ (or_introl eq_refl) (js "Le chat") (js "ch")).
  assert (isValid (lipogram_validate UCD_excerpt (js "Le chat") (js "ch")) = true)
    as H1; [|vm_compute in H1; discriminate].
  apply H. intros Hin. vm_compute in Hin.
  repeat (destruct Hin as [Hin | Hin]; [discriminate|]). exact Hin.
Qed.

(** C1, amended: no validator looks its parameter up in the options; for every
    constraint of the registry, every text and every parameter, listed or not,
    [validate] answers [isValid = true] exactly when what it looks for finds
    no match. *)
Theorem C1_valid_iff_no_match (U : UCD) (c : Constraint) (text param : jsstring) :
  In c (CONSTRAINTS U) ->
  (isValid (validate c text param) = true <-> no_match U (id c) text param).
Proof.
  intros Hc. simpl in Hc.
  destruct Hc as [<- | [<- | [<- | [<- | []]]]]; simpl.
  - unfold lipogram_validate. rewrite <- includes_substring.
    destruct (includes _ _); simpl; split; congruence.
  - unfold monovocalism_validate. rewrite monovocalism_loop_valid.
    split; intros H; eapply Forall_impl; try exact H;
      intros char; apply otherVowels_includes.
  - unfold tautogram_validate. apply tautogram_loop_valid.
  - unfold alliteration_validate. rewrite alliteration_loop_valid.
    apply tautogram_loop_valid.
Qed.

Lemma C1_valid_iff_no_match_witness :
  let c := {| id := lipogram;
              name := js "Lipogramme";
              description := js "Interdiction d’une lettre donnée.";
              parameter := {| type := letter; label := js "Lettre interdite";
                              options := ALPHABET |};
              validate := lipogram_validate UCD_excerpt |} in
  In c (CONSTRAINTS UCD_excerpt) /\
  (isValid (validate c (js "Le chat") (js "ch")) = true <->
   no_match UCD_excerpt (id c) (js "Le chat") (js "ch")).
Proof.
  intros c. assert (In c (CONSTRAINTS UCD_excerpt)) as Hc.
  { left. reflexivity. }
  split; [exact Hc|].
  exact (C1_valid_iff_no_match UCD_excerpt c (js "Le chat") (js "ch") Hc).
Defined.

(** C2: what the tokenizer returns on the two inputs of the claim.  [\w] is
    [A-Za-z0-9_], so U+00E8 ends the first word of "grand-mère dit-elle" and
    is itself dropped: the words are "grand-m", "re" and "dit-elle", not
    "grand-mère" and "dit-elle".  On "bonjour-" the hyphen is given back and
    the only word is "bonjour". *)
Theorem C2_tokenizer_on_examples :
  words (js "grand-mère dit-elle") = [js "grand-m"; js "re"; js "dit-elle"]
  /\ words (js "grand-mère dit-elle") <> [js "grand-mère"; js "dit-elle"]
  /\ words (js "bonjour-") = [js "bonjour"].
Proof. split; [reflexivity|]. split; [discriminate | reflexivity]. Qed.

(** The same on a whole validation: the word "école" is read as "cole" and
    the tautogram in "e" rejects it, although the module normalizes every
    word so that an accented initial counts as its base letter. *)
Lemma tautogram_accented_initial (U : UCD) :
  has_excerpt U ->
  tautogram_validate U (js "école") (js "e")
  = invalid (js "Le mot " ++ dquote ++ js "cole" ++ dquote
             ++ js " ne commence pas par " ++ dquote ++ js "e" ++ dquote).
Proof.
  intros HU. rewrite (tautogram_validate_excerpt U HU) by reflexivity.
  vm_compute. reflexivity.
Qed.

(** C3, as the specification states it, fails: "des" does not begin with
    "p", so the tautogram in "p" rejects "Pierre porte des pommes.". *)
Lemma C3_pierre_porte_des_pommes_rejected :
  ~ (isValid (tautogram_validate UCD_excerpt (js "Pierre porte des pommes.") (js "p"))
     = true
     /\ isValid (tautogram_validate UCD_excerpt (js "Pierre mange.") (js "p")) = false
     /\ exists message,
          error (tautogram_validate UCD_excerpt (js "Pierre mange.") (js "p"))
          = Some message
          /\ substring (js "mange") message).
Proof. intros [H _]. vm_compute in H. discriminate. Qed.

(** C3, amended: the tautogram in "p" rejects "Pierre porte des pommes." with
    an error that names the word "des", and rejects "Pierre mange." with an
    error that names the word "mange". *)
Theorem C3_tautogram_examples (U : UCD) :
  has_excerpt U ->
  tautogram_validate U (js "Pierre porte des pommes.") (js "p")
  = {| isValid := false;
       error := Some (js "Le mot " ++ dquote ++ js "des" ++ dquote
                      ++ js " ne commence pas par " ++ dquote ++ js "p" ++ dquote) |}
  /\ tautogram_validate U (js "Pierre mange.") (js "p")
  = {| isValid := false;
       error := Some (js "Le mot " ++ dquote ++ js "mange" ++ dquote
                      ++ js " ne commence pas par " ++ dquote ++ js "p" ++ dquote) |}.
Proof.
  intros HU. rewrite !(tautogram_validate_excerpt U HU) by reflexivity.
  split; vm_compute; reflexivity.
Qed.

Lemma C3_tautogram_examples_witness :
  has_excerpt UCD_excerpt
  /\ tautogram_validate UCD_excerpt (js "Pierre mange.") (js "p")
     = {| isValid := false;
          error := Some (js "Le mot " ++ dquote ++ js "mange" ++ dquote
                         ++ js " ne commence pas par " ++ dquote ++ js "p"
                         ++ dquote) |}.
Proof.
  split; [exact UCD_excerpt_has_excerpt|].
  exact (proj2 (C3_tautogram_examples UCD_excerpt UCD_excerpt_has_excerpt)).
Defined.

(** C4: for every text and every letter of the alphabet, the lipogram returns
    the error [Lettre interdite détectée : "<letter>"], with the letter
    lowercased, and [isValid = false], exactly when the lowercased letter
    occurs in the lowercased text stripped of its diacritics, and
    [isValid = true] without an error otherwise; "café" with "e" is
    rejected. *)
Theorem C4_lipogram_forbidden_letter (U : UCD) :
  (forall text param : jsstring,
     In param ALPHABET ->
     let forbiddenLetter := toLowerCase U param in
     let normalizedText := normalizeText U (toLowerCase U text) in
     (lipogram_validate U text param
      = {| isValid := false;
           error := Some (js "Lettre interdite détectée : " ++ dquote
                          ++ forbiddenLetter ++ dquote) |}
      <-> substring forbiddenLetter normalizedText)
     /\ (~ substring forbiddenLetter normalizedText ->
         lipogram_validate U text param = {| isValid := true; error := None |}))
  /\ (has_excerpt U ->
      lipogram_validate U (js "café") (js "e")
      = {| isValid := false;
           error := Some (js "Lettre interdite détectée : " ++ dquote
                          ++ js "e" ++ dquote) |}).
Proof.
  split.
  - intros text param _ forbiddenLetter normalizedText.
    unfold lipogram_validate. fold forbiddenLetter. fold normalizedText.
    rewrite <- includes_substring.
    destruct (includes normalizedText forbiddenLetter); split.
    + split; reflexivity.
    + intros H. exfalso. apply H. reflexivity.
    + split; discriminate.
    + reflexivity.
  - intros HU. rewrite (lipogram_validate_excerpt U HU) by reflexivity.
    vm_compute. reflexivity.
Qed.

Lemma C4_lipogram_forbidden_letter_witness :
  In (js "e") ALPHABET /\ has_excerpt UCD_excerpt
  /\ (lipogram_validate UCD_excerpt (js "Le chat mange.") (js "e")
      = {| isValid := false;
           error := Some (js "Lettre interdite détectée : " ++ dquote
                          ++ toLowerCase UCD_excerpt (js "e") ++ dquote) |}
      <-> substring (toLowerCase UCD_excerpt (js "e"))
            (normalizeText UCD_excerpt
               (toLowerCase UCD_excerpt (js "Le chat mange."))))
  /\ lipogram_validate UCD_excerpt (js "café") (js "e")
     = {| isValid := false;
          error := Some (js "Lettre interdite détectée : " ++ dquote
                         ++ js "e" ++ dquote) |}.
Proof.
  assert (In (js "e") ALPHABET) as He.
  { rewrite ALPHABET_letters. simpl. tauto. }
  split; [exact He|]. split; [exact UCD_excerpt_has_excerpt|]. split.
  - exact (proj1 (proj1 (C4_lipogram_forbidden_letter UCD_excerpt)
                    (js "Le chat mange.") (js "e") He)).
  - exact (proj2 (C4_lipogram_forbidden_letter UCD_excerpt)
             UCD_excerpt_has_excerpt).
Defined.

(** C5: for every text and every parameter the alliteration and the tautogram
    return the same [isValid]; either both accept without an error, or both
    stop at the same word and their errors differ in the wording only (the
    alliteration says [ne commence pas par la consonne]).  The alliteration
    does not look whether its parameter is a consonant: with the vowel "a" it
    accepts "avion". *)
Theorem C5_alliteration_like_tautogram (U : UCD) :
  (forall text param : jsstring,
     isValid (alliteration_validate U text param)
     = isValid (tautogram_validate U text param)
     /\ ((tautogram_validate U text param = {| isValid := true; error := None |}
          /\ alliteration_validate U text param
             = {| isValid := true; error := None |})
         \/ exists word,
              In word (words text)
              /\ tautogram_validate U text param
                 = {| isValid := false;
                      error := Some (js "Le mot " ++ dquote ++ word ++ dquote
                                     ++ js " ne commence pas par "
                                     ++ dquote ++ toLowerCase U param ++ dquote) |}
              /\ alliteration_validate U text param
                 = {| isValid := false;
                      error := Some (js "Le mot " ++ dquote ++ word ++ dquote
                                     ++ js " ne commence pas par la consonne "
                                     ++ dquote ++ toLowerCase U param ++ dquote) |}))
  /\ (has_excerpt U ->
      alliteration_validate U (js "avion") (js "a")
      = {| isValid := true; error := None |}).
Proof.
  split.
  - intros text param. split.
    + apply alliteration_loop_valid.
    + exact (alliteration_loop_tautogram_loop U (toLowerCase U param) (words text)).
  - intros HU. rewrite (alliteration_validate_excerpt U HU) by reflexivity.
    vm_compute. reflexivity.
Qed.

Lemma C5_alliteration_like_tautogram_witness :
  has_excerpt UCD_excerpt
  /\ alliteration_validate UCD_excerpt (js "avion") (js "a")
     = {| isValid := true; error := None |}.
Proof.
  split; [exact UCD_excerpt_has_excerpt|].
  exact (proj2 (C5_alliteration_like_tautogram UCD_excerpt)
           UCD_excerpt_has_excerpt).
Defined.

(** C6, as the specification states it, fails: U+05B0 HEBREW POINT SHEVA, a
    combining mark of combining class 10, is outside the class the normalizer
    removes and stays in the result. *)
Lemma C6_combining_mark_kept :
  ~ (forall s : jsstring,
       Forall (fun cp => ~ nonstarter UCD_excerpt cp)
              (StringToCodePoints (normalizeText UCD_excerpt s))).
Proof.
  intros H. specialize (H [0x5B0]).
  change (normalizeText UCD_excerpt [0x5B0]) with [0x5B0] in H.
  inversion H as [|? ? H1 _]; subst. apply H1. unfold nonstarter. discriminate.
Qed.

(** C6, amended: for every input string, the normalizer performs Unicode
    canonical decomposition and then removes the code units U+0300 to U+036F
    (the block Combining Diacritical Marks) and nothing else, so that the
    result holds no code unit of that block; normalize("été") = "ete",
    normalize("à") = "a", and é/è/ê/ë map to e, à/â to a, ù/û to u, ô to o,
    î/ï to i, ç to c. *)
Theorem C6_normalizer_strips_diacritical_block (U : UCD) :
  (forall s : jsstring,
     normalizeText U s
     = filter (fun u => negb ((0x300 <=? u) && (u <=? 0x36F))) (normalize_NFD U s)
     /\ Forall (fun u => ~ (0x300 <= u <= 0x36F)) (normalizeText U s))
  /\ (has_excerpt U ->
      normalizeText U (js "été") = js "ete"
      /\ normalizeText U (js "à") = js "a"
      /\ map (normalizeText U) [js "é"; js "è"; js "ê"; js "ë"]
         = [js "e"; js "e"; js "e"; js "e"]
      /\ map (normalizeText U) [js "à"; js "â"] = [js "a"; js "a"]
      /\ map (normalizeText U) [js "ù"; js "û"] = [js "u"; js "u"]
      /\ normalizeText U (js "ô") = js "o"
      /\ map (normalizeText U) [js "î"; js "ï"] = [js "i"; js "i"]
      /\ normalizeText U (js "ç") = js "c").
Proof.
  split.
  - intros s. unfold normalizeText. rewrite replace_all_filter.
    split; [reflexivity|].
    apply Forall_forall. intros u Hu. apply filter_In in Hu.
    destruct Hu as [_ Hu]. unfold combining_diacritical in Hu.
    intros [H1 H2]. apply N.leb_le in H1, H2. rewrite H1, H2 in Hu. discriminate.
  - intros HU. cbn [map].
    rewrite !(normalizeText_excerpt U HU) by reflexivity.
    repeat split; vm_compute; reflexivity.
Qed.

Lemma C6_normalizer_strips_diacritical_block_witness :
  has_excerpt UCD_excerpt /\ normalizeText UCD_excerpt (js "été") = js "ete".
Proof.
  split; [exact UCD_excerpt_has_excerpt|].
  exact (proj1 (proj2 (C6_normalizer_strips_diacritical_block UCD_excerpt)
                  UCD_excerpt_has_excerpt)).
Defined.

(** C7, as the specification states it, fails.  U+034F COMBINING GRAPHEME
    JOINER, of combining class 0, keeps U+05B1 (class 11) before U+05B0
    (class 10); the normalizer removes it, being of the block it strips, and
    a second normalization then puts the two marks in canonical order. *)
Lemma C7_not_idempotent_across_joiner :
  normalizeText UCD_excerpt (normalizeText UCD_excerpt [0x5B1; 0x34F; 0x5B0])
  <> normalizeText UCD_excerpt [0x5B1; 0x34F; 0x5B0].
Proof. vm_compute. discriminate. Qed.

(** And so on every database with the entries of the excerpt. *)
Lemma normalizeText_not_idempotent_joiner (U : UCD) :
  has_excerpt U ->
  normalizeText U [0x5B1; 0x34F; 0x5B0] = [0x5B1; 0x5B0]
  /\ normalizeText U (normalizeText U [0x5B1; 0x34F; 0x5B0]) = [0x5B0; 0x5B1].
Proof.
  intros HU. rewrite (normalizeText_excerpt U HU [0x5B1; 0x34F; 0x5B0]) by reflexivity.
  change (normalizeText UCD_excerpt [0x5B1; 0x34F; 0x5B0]) with [0x5B1; 0x5B0].
  rewrite (normalizeText_excerpt U HU) by reflexivity.
  split; reflexivity.
Qed.

(** Lone surrogates break it as well: once U+0301 between them is removed
    they pair up as U+1D15E, which a second normalization decomposes. *)
Lemma normalizeText_not_idempotent_lone_surrogates :
  normalizeText UCD_excerpt (normalizeText UCD_excerpt [0xD834; 0x301; 0xDD5E])
  <> normalizeText UCD_excerpt [0xD834; 0x301; 0xDD5E].
Proof. vm_compute. discriminate. Qed.

(** C7, amended: on every well-formed string (one without lone surrogates)
    that does not contain U+034F COMBINING GRAPHEME JOINER the normalizer is
    idempotent, normalize(normalize(s)) = normalize(s); and the empty string
    maps to the empty string. *)
Theorem C7_normalizer_idempotent (U : UCD) :
  decomposition_facts U ->
  (forall s : jsstring,
     well_formed s -> ~ In 0x34F s ->
     normalizeText U (normalizeText U s) = normalizeText U s)
  /\ normalizeText U [] = [].
Proof.
  intros HU. split; [|reflexivity].
  intros s Hwf Hj. rewrite !normalizeText_code_points.
  set (keep := fun cp : code_unit => negb (combining_diacritical cp)).
  set (l := StringToCodePoints s) in *.
  assert (forall x, In x (NFD U l) ->
            canonical_decomposition U x = [x] /\ scalar_value x /\ x <> 0x34F)
    as Hn.
  { intros x Hx. apply NFD_In in Hx. destruct Hx as [c [Hc Hx]].
    split; [|split].
    - exact (decomposition_stable U HU c x Hx).
    - apply (decomposition_scalar U HU c x); [|exact Hx].
      unfold well_formed in Hwf. rewrite Forall_forall in Hwf. apply Hwf, Hc.
    - intros ->. apply (joiner_not_decomposed U HU) in Hx. subst c.
      apply StringToCodePoints_In in Hc. destruct Hc as [Hc | Hc]; [auto | lia]. }
  set (m := filter keep (NFD U l)).
  assert (forall x, In x m -> In x (NFD U l)) as Hm
    by (intros x Hx; apply filter_In in Hx; apply Hx).
  rewrite StringToCodePoints_CodePointsToString.
  2:{ apply Forall_forall. intros x Hx. apply Hn, Hm, Hx. }
  rewrite (NFD_fixed U m).
  - unfold m. f_equal. unfold NFD.
    induction (canonical_order U (flat_map (canonical_decomposition U) l))
      as [|a n IH]; [reflexivity|].
    cbn [filter]. destruct (keep a) eqn:E; [|exact IH].
    cbn [filter]. rewrite E, IH. reflexivity.
  - intros x Hx. apply Hn, Hm, Hx.
  - apply filter_ordered; [|apply canonical_order_ordered].
    intros x Hx E. apply (diacritical_nonstarter U HU).
    + unfold keep in E. destruct (combining_diacritical x); [reflexivity | discriminate].
    + apply (Hn x Hx).
Qed.

Lemma C7_normalizer_idempotent_witness :
  decomposition_facts UCD_excerpt /\ well_formed (js "été")
  /\ ~ In 0x34F (js "été")
  /\ normalizeText UCD_excerpt (normalizeText UCD_excerpt (js "été"))
     = normalizeText UCD_excerpt (js "été").
Proof.
  assert (well_formed (js "été")) as Hwf.
  { unfold well_formed. apply Forall_forall. intros x Hx.
    vm_compute in Hx. left.
    repeat (destruct Hx as [<- | Hx]; [reflexivity|]). destruct Hx. }
  assert (~ In 0x34F (js "été")) as Hj.
  { intros Hx. vm_compute in Hx.
    repeat (destruct Hx as [Hx | Hx]; [discriminate|]). exact Hx. }
  split; [exact UCD_excerpt_decomposition_facts|].
  split; [exact Hwf|]. split; [exact Hj|].
  exact (proj1 (C7_normalizer_idempotent UCD_excerpt
                  UCD_excerpt_decomposition_facts) (js "été") Hwf Hj).
Defined.

(** C8: on the empty text each of the four validators accepts, with every
    parameter of its options. *)
Theorem C8_empty_text_valid (U : UCD) :
  basic_latin_case U ->
  forall c : Constraint, In c (CONSTRAINTS U) ->
  forall param : jsstring, In param (options (parameter c)) ->
  validate c [] param = {| isValid := true; error := None |}.
Proof.
  intros HU c Hc param Hp. simpl in Hc.
  destruct Hc as [<- | [<- | [<- | [<- | []]]]]; try reflexivity.
  cbn [validate parameter options] in *. rewrite ALPHABET_letters in Hp.
  apply in_map_iff in Hp. destruct Hp as [l [<- Hl]].
  unfold lipogram_validate.
  rewrite toLowerCase_empty, normalizeText_empty.
  simpl in Hl.
  repeat (destruct Hl as [<- | Hl];
          [rewrite (toLowerCase_basic_latin U _ HU) by (intro; discriminate);
           reflexivity|]).
  destruct Hl.
Qed.

Lemma C8_empty_text_valid_witness :
  let c := {| id := lipogram;
              name := js "Lipogramme";
              description := js "Interdiction d’une lettre donnée.";
              parameter := {| type := letter; label := js "Lettre interdite";
                              options := ALPHABET |};
              validate := lipogram_validate UCD_excerpt |} in
  basic_latin_case UCD_excerpt /\ In c (CONSTRAINTS UCD_excerpt)
  /\ In (js "e") (options (parameter c))
  /\ validate c [] (js "e") = {| isValid := true; error := None |}.
Proof.
  intros c.
  assert (basic_latin_case UCD_excerpt) as HU by exact UCD_excerpt_basic_latin_case.
  assert (In c (CONSTRAINTS UCD_excerpt)) as Hc by (left; reflexivity).
  assert (In (js "e") (options (parameter c))) as Hp.
  { change (In (js "e") ALPHABET). rewrite ALPHABET_letters. simpl. tauto. }
  split; [exact HU|]. split; [exact Hc|]. split; [exact Hp|].
  exact (C8_empty_text_valid UCD_excerpt HU c Hc (js "e") Hp).
Defined.

(** C9: the lipogram does not tell "E" from "e": for every text the two calls
    return the same result, [isValid] and error alike; and so for the
    uppercase and lowercase of every letter. *)
Theorem C9_lipogram_parameter_case (U : UCD) :
  basic_latin_case U ->
  forall text : jsstring,
    lipogram_validate U text (js "E") = lipogram_validate U text (js "e")
    /\ (forall upper : code_unit, 0x41 <= upper <= 0x5A ->
        lipogram_validate U text [upper] = lipogram_validate U text [upper + 0x20]).
Proof.
  intros HU text.
  assert (forall upper : code_unit, 0x41 <= upper <= 0x5A ->
          lipogram_validate U text [upper] = lipogram_validate U text [upper + 0x20])
    as H.
  { intros upper Hu. unfold lipogram_validate.
    rewrite !(toLowerCase_basic_latin U _ HU) by lia.
    destruct (basic_latin_lowercase_upper upper Hu) as [-> ->]. reflexivity. }
  split; [|exact H].
  apply (H 0x45). split; intro; discriminate.
Qed.

Lemma C9_lipogram_parameter_case_witness :
  basic_latin_case UCD_excerpt /\ 0x41 <= 0x5A <= 0x5A
  /\ lipogram_validate UCD_excerpt (js "Le chat mange.") (js "E")
     = lipogram_validate UCD_excerpt (js "Le chat mange.") (js "e")
  /\ lipogram_validate UCD_excerpt (js "Le chat mange.") (js "Z")
     = lipogram_validate UCD_excerpt (js "Le chat mange.") (js "z").
Proof.
  assert (0x41 <= 0x5A <= 0x5A) as Hz by (split; intro; discriminate).
  split; [exact UCD_excerpt_basic_latin_case|]. split; [exact Hz|]. split.
  - exact (proj1 (C9_lipogram_parameter_case UCD_excerpt
                    UCD_excerpt_basic_latin_case (js "Le chat mange."))).
  - exact (proj2 (C9_lipogram_parameter_case UCD_excerpt
                    UCD_excerpt_basic_latin_case (js "Le chat mange.")) 0x5A Hz).
Defined.

(** C10: with the empty parameter the lipogram rejects every text, the empty
    text included: the empty string occurs in every string. *)
Theorem C10_lipogram_empty_parameter (U : UCD) :
  (forall text : jsstring, isValid (lipogram_validate U text []) = false)
  /\ isValid (lipogram_validate U [] []) = false.
Proof.
  assert (forall text : jsstring, isValid (lipogram_validate U text []) = false)
    as H.
  { intros text. unfold lipogram_validate.
    rewrite toLowerCase_empty, includes_empty. reflexivity. }
  split; [exact H | apply H].
Qed.

(** ** Further properties: the tokenizer *)

Lemma longest_run_class (class : code_unit -> bool) (s : jsstring) :
  Forall (fun u => class u = true) (longest_run class s).
Proof.
  induction s as [|u s IH]; simpl; [constructor|].
  destruct (class u) eqn:E; constructor; assumption.
Qed.

(** The run is the start of the string, and what follows it does not begin
    with a character of the class. *)
Lemma longest_run_split (class : code_unit -> bool) (s : jsstring) :
  exists rest,
    s = longest_run class s ++ rest
    /\ match rest with [] => True | u :: _ => class u = false end.
Proof.
  induction s as [|u s [rest [E H]]]; simpl.
  - exists []. split; [reflexivity | exact I].
  - destruct (class u) eqn:Eu.
    + exists rest. split; [simpl; f_equal; exact E | exact H].
    + exists (u :: s). split; [reflexivity | exact Eu].
Qed.

Lemma longest_run_app (class : code_unit -> bool) (a b : jsstring) (sep : code_unit) :
  class sep = false ->
  longest_run class (a ++ sep :: b) = longest_run class a.
Proof.
  intros Hsep. induction a as [|u a IH]; simpl.
  - rewrite Hsep. reflexivity.
  - destruct (class u); [f_equal; exact IH | reflexivity].
Qed.

(** What the backtracking gives back are hyphens, and it stops at a unit that
    is not one. *)
Lemma give_back_Some (r m : jsstring) :
  give_back r = Some m ->
  exists hyphens,
    rev r = m ++ hyphens /\ Forall (fun u => u = 0x2D) hyphens
    /\ m <> [] /\ last m 0 <> 0x2D.
Proof.
  induction r as [|u r IH]; simpl; [discriminate|].
  destruct (u =? 0x2D) eqn:E.
  - intros H. destruct (IH H) as [hy [E1 [H1 [H2 H3]]]].
    apply N.eqb_eq in E. exists (hy ++ [u]).
    split; [rewrite E1, app_assoc; reflexivity|].
    split; [|split; assumption].
    apply Forall_app. split; [exact H1 | constructor; [exact E | constructor]].
  - intros [= <-]. exists []. apply N.eqb_neq in E.
    split; [rewrite app_nil_r; reflexivity|]. split; [constructor|].
    split.
    + intros H. apply app_eq_nil in H. destruct H as [_ H]. discriminate.
    + rewrite last_last. exact E.
Qed.

Lemma give_back_None (r : jsstring) :
  give_back r = None <-> Forall (fun u => u = 0x2D) r.
Proof.
  induction r as [|u r IH]; simpl.
  - split; [constructor | reflexivity].
  - destruct (u =? 0x2D) eqn:E.
    + apply N.eqb_eq in E. rewrite IH. split.
      * intros H. constructor; assumption.
      * intros H. inversion H; assumption.
    + apply N.eqb_neq in E. split; [discriminate|].
      intros H. inversion H. contradiction.
Qed.

(** A match of WORD_REGEX is a token at the start of the string; hyphens may
    follow it, and then the string ends or goes on with a character outside
    the class. *)
Lemma WORD_REGEX_Some (s m : jsstring) :
  WORD_REGEX s = Some m ->
  token m /\
  exists hyphens rest,
    s = m ++ hyphens ++ rest
    /\ Forall (fun u => u = 0x2D) hyphens
    /\ match rest with [] => True | u :: _ => WORD_CLASS u = false end.
Proof.
  unfold WORD_REGEX. intros H. apply give_back_Some in H.
  destruct H as [hy [E [Hhy [Hne Hlast]]]]. rewrite rev_involutive in E.
  destruct (longest_run_split WORD_CLASS s) as [rest [Es Hrest]].
  pose proof (longest_run_class WORD_CLASS s) as Hc. rewrite E in Hc, Es.
  apply Forall_app in Hc. destruct Hc as [Hm _].
  split; [split; [exact Hne | split; [exact Hm | exact Hlast]]|].
  exists hy, rest. rewrite <- app_assoc in Es. auto.
Qed.

(** No match at the start of the string: it starts with hyphens only, up to
    its end or to a character outside the class. *)
Lemma WORD_REGEX_None (s : jsstring) :
  WORD_REGEX s = None <->
  Forall (fun u => u = 0x2D) (longest_run WORD_CLASS s).
Proof.
  unfold WORD_REGEX. rewrite give_back_None. split; intros H.
  - apply Forall_forall. intros u Hu. rewrite Forall_forall in H.
    apply H, in_rev. rewrite rev_involutive. exact Hu.
  - apply Forall_forall. intros u Hu. rewrite Forall_forall in H.
    apply H, in_rev, Hu.
Qed.

Lemma match_global_consumed (pattern : jsstring -> option jsstring)
    (consumed : nat) (s : jsstring) :
  match_global pattern consumed s = match_global pattern O (skipn consumed s).
Proof.
  revert consumed. induction s as [|u s IH]; intros [|k]; try reflexivity.
  cbn [match_global skipn]. apply IH.
Qed.

(** The tokenizer, one match at a time. *)
Lemma words_match (s m : jsstring) :
  WORD_REGEX s = Some m -> words s = m :: words (skipn (List.length m) s).
Proof.
  intros H. destruct (WORD_REGEX_Some s m H) as [[Hne _] _].
  destruct s as [|u s]; [discriminate H|].
  unfold words at 1. cbn [match_global]. rewrite H. f_equal.
  rewrite match_global_consumed.
  destruct m as [|v m]; [contradiction | reflexivity].
Qed.

Lemma words_no_match (u : code_unit) (s : jsstring) :
  WORD_REGEX (u :: s) = None -> words (u :: s) = words s.
Proof. intros H. unfold words at 1. cbn [match_global]. rewrite H. reflexivity. Qed.

(** Induction along the tokenizer: behind a match, or one code unit on. *)
Lemma words_ind (P : jsstring -> Prop) :
  P [] ->
  (forall s m, WORD_REGEX s = Some m -> P (skipn (List.length m) s) -> P s) ->
  (forall u s, WORD_REGEX (u :: s) = None -> P s -> P (u :: s)) ->
  forall s, P s.
Proof.
  intros Hnil Hmatch Hfail s.
  assert (forall n s, (List.length s <= n)%nat -> P s) as H;
    [|apply (H (List.length s)); lia].
  clear s. induction n as [|n IH]; intros s Hs.
  - destruct s; [exact Hnil | simpl in Hs; lia].
  - destruct s as [|u s]; [exact Hnil|].
    destruct (WORD_REGEX (u :: s)) as [m|] eqn:E.
    + apply (Hmatch _ m E). apply IH.
      destruct (WORD_REGEX_Some _ _ E) as [[Hne _] _].
      destruct m as [|v m]; [contradiction|].
      cbn [List.length skipn]. pose proof (length_skipn (List.length m) s).
      simpl in Hs. lia.
    + apply (Hfail u s E). apply IH. simpl in Hs. lia.
Qed.

Lemma WORD_CLASS_basic_latin (u : code_unit) : WORD_CLASS u = true -> u <= 0x7A.
Proof.
  unfold WORD_CLASS, word_character. intros H.
  repeat (apply orb_true_iff in H; destruct H as [H | H]);
    try (apply andb_true_iff in H; destruct H as [_ H]; apply N.leb_le in H);
    try apply N.eqb_eq in H; lia.
Qed.

Lemma words_Forall_token (text : jsstring) : Forall token (words text).
Proof.
  induction text as [|s m Hm IH|u s Hf IH] using words_ind.
  - constructor.
  - rewrite (words_match s m Hm). constructor; [|exact IH].
    apply (WORD_REGEX_Some s m Hm).
  - rewrite (words_no_match u s Hf). exact IH.
Qed.

Lemma token_basic_latin (w : jsstring) : token w -> basic_latin w.
Proof.
  intros [_ [Hc _]]. unfold basic_latin. eapply Forall_impl; [|exact Hc].
  intros u Hu. apply WORD_CLASS_basic_latin in Hu. lia.
Qed.

(** X1: every word the tokenizer returns is a token (not empty, made of word
    characters, apostrophes and hyphens only, not ending in a hyphen), and so
    a word of Basic Latin characters, whatever the text. *)
Theorem words_are_tokens (text : jsstring) :
  Forall (fun w => token w /\ basic_latin w) (words text).
Proof.
  eapply Forall_impl; [|apply words_Forall_token].
  intros w Hw. split; [exact Hw | apply token_basic_latin, Hw].
Qed.

Lemma WORD_REGEX_None_head (u : code_unit) (s : jsstring) :
  WORD_REGEX (u :: s) = None -> word_unit u = false.
Proof.
  intros H. apply WORD_REGEX_None in H. unfold word_unit. cbn [longest_run] in H.
  destruct (WORD_CLASS u); [|reflexivity].
  inversion H as [|? ? Hu _]; subst. reflexivity.
Qed.

Lemma token_last_word_unit (m : jsstring) :
  token m -> In (last m 0) m /\ word_unit (last m 0) = true.
Proof.
  intros [Hne [Hc Hl]].
  assert (In (last m 0) m) as Hin.
  { rewrite (app_removelast_last 0 Hne) at 2. apply in_or_app. right. left.
    reflexivity. }
  split; [exact Hin|]. unfold word_unit. rewrite Forall_forall in Hc.
  rewrite (Hc _ Hin). apply N.eqb_neq in Hl. rewrite Hl. reflexivity.
Qed.

Lemma skipn_length_app (m x : jsstring) : skipn (List.length m) (m ++ x) = x.
Proof. induction m as [|u m IH]; [reflexivity | exact IH]. Qed.

(** X2: the tokenizer returns no word exactly when the text holds no word
    character and no apostrophe; hyphens alone make no word. *)
Theorem words_empty_iff (text : jsstring) :
  words text = [] <-> Forall (fun u => word_unit u = false) text.
Proof.
  induction text as [|s m Hm IH|u s Hf IH] using words_ind.
  - split; [constructor | reflexivity].
  - rewrite (words_match s m Hm). split; [discriminate|].
    intros H. exfalso.
    destruct (WORD_REGEX_Some s m Hm) as [Ht [hy [rest [E _]]]].
    destruct (token_last_word_unit m Ht) as [Hin Hw].
    rewrite Forall_forall in H. rewrite (H (last m 0)) in Hw; [discriminate|].
    rewrite E. apply in_or_app. left. exact Hin.
  - rewrite (words_no_match u s Hf), IH. split.
    + intros H. constructor; [exact (WORD_REGEX_None_head u s Hf) | exact H].
    + intros H. inversion H; assumption.
Qed.

Lemma longest_run_hyphens (hyphens rest : jsstring) :
  Forall (fun u => u = 0x2D) hyphens ->
  match rest with [] => True | u :: _ => WORD_CLASS u = false end ->
  longest_run WORD_CLASS (hyphens ++ rest) = hyphens.
Proof.
  intros Hh Hr. induction Hh as [|u hy -> _ IH]; cbn [app longest_run].
  - destruct rest as [|u rest]; [reflexivity|]. cbn [longest_run].
    rewrite Hr. reflexivity.
  - change (WORD_CLASS 0x2D) with true. cbn iota. rewrite IH. reflexivity.
Qed.

(** Behind a match there is no match: only the hyphens given back, if any. *)
Lemma WORD_REGEX_behind_match (s m : jsstring) :
  WORD_REGEX s = Some m -> WORD_REGEX (skipn (List.length m) s) = None.
Proof.
  intros H. destruct (WORD_REGEX_Some s m H) as [_ [hy [rest [E [Hh Hr]]]]].
  rewrite E, skipn_length_app. apply WORD_REGEX_None.
  rewrite (longest_run_hyphens hy rest Hh Hr). exact Hh.
Qed.

(** A code unit of the class before a match is matched as well. *)
Lemma WORD_REGEX_None_tail (u : code_unit) (s : jsstring) :
  WORD_REGEX (u :: s) = None -> WORD_CLASS u = true -> WORD_REGEX s = None.
Proof.
  intros H Hu. apply WORD_REGEX_None in H. apply WORD_REGEX_None.
  cbn [longest_run] in H. rewrite Hu in H. inversion H; assumption.
Qed.

(** The text as the tokenizer cuts it, with what the induction needs: a
    text that does not begin with a gap is empty or begins with a match. *)
Lemma words_weave_lead (text : jsstring) :
  exists (befores : list jsstring) (final : jsstring),
    List.length befores = List.length (words text)
    /\ weave befores (words text) final = text
    /\ Forall gap befores /\ gap final
    /\ Forall boundary befores
    /\ Forall (fun g => g <> []) (tl befores)
    /\ (match befores with [] => final | g :: _ => g end = [] ->
        text = [] \/ WORD_REGEX text <> None).
Proof.
  induction text as [|s m Hm IH|u s Hf IH] using words_ind.
  - exists [], []. repeat (split; [solve [reflexivity | constructor]|]).
    intros _. left. reflexivity.
  - destruct IH as [befores [final [Hlen [Hw [Hg [Hgf [Hb [Hne Hlead]]]]]]]].
    destruct (WORD_REGEX_Some s m Hm) as [_ [hy [rest [E _]]]].
    assert (s = m ++ skipn (List.length m) s) as Es.
    { rewrite E at 2. rewrite skipn_length_app. exact E. }
    pose proof (WORD_REGEX_behind_match s m Hm) as Hbehind.
    rewrite (words_match s m Hm). exists ([] :: befores), final.
    split; [simpl; rewrite Hlen; reflexivity|].
    split; [cbn [weave app]; rewrite Hw; symmetry; exact Es|].
    split; [constructor; [constructor | exact Hg]|].
    split; [exact Hgf|].
    split; [constructor; [left; reflexivity | exact Hb]|].
    split; [|intros _; right; rewrite Hm; discriminate].
    cbn [tl]. destruct befores as [|g befores]; [constructor|].
    constructor; [|exact Hne]. intros ->.
    destruct (Hlead eq_refl) as [H | H]; [|contradiction].
    rewrite H in Hlen. discriminate Hlen.
  - destruct IH as [befores [final [Hlen [Hw [Hg [Hgf [Hb [Hne Hlead]]]]]]]].
    pose proof (WORD_REGEX_None_head u s Hf) as Hu.
    rewrite (words_no_match u s Hf).
    destruct befores as [|g befores].
    + exists [], (u :: final). destruct (words s); [|discriminate Hlen].
      cbn [weave] in *. subst final.
      repeat (split; [solve [reflexivity | constructor]|]).
      split; [constructor; assumption|].
      repeat (split; [solve [reflexivity | constructor]|]). discriminate.
    + exists ((u :: g) :: befores), final.
      destruct (words s) as [|w ws] eqn:Ew; [discriminate Hlen|].
      pose proof (Forall_inv Hg) as Hg0. pose proof (Forall_inv_tail Hg) as Hgs.
      pose proof (Forall_inv Hb) as Hb0. pose proof (Forall_inv_tail Hb) as Hbs.
      split; [exact Hlen|].
      split; [cbn [weave] in *; rewrite <- Hw; reflexivity|].
      split; [constructor; [constructor; assumption | exact Hgs]|].
      split; [exact Hgf|].
      split; [|split; [exact Hne | discriminate]].
      constructor; [|exact Hbs]. right.
      destruct g as [|v g].
      * cbn [last]. destruct (WORD_CLASS u) eqn:Ec; [|reflexivity].
        exfalso. destruct (Hlead eq_refl) as [H | H].
        -- rewrite H in Ew. discriminate Ew.
        -- apply H. exact (WORD_REGEX_None_tail u s Hf Ec).
      * destruct Hb0 as [H | H]; [discriminate H|].
        change (last (u :: v :: g) 0) with (last (v :: g) 0). exact H.
Qed.

(** X3: the words are disjoint pieces of the text, in the order of the text:
    the text is a gap, the first word, a gap, the second word, and so on to a
    last gap.  No gap holds a word character or an apostrophe, so that none
    of them is lost.  The gap before a word is empty (before the first word
    only) or ends with a code unit outside the class [[\w'-]]: a word begins
    where a run of the class begins, hyphens alone do not separate two words,
    and two words never touch. *)
Theorem words_weave (text : jsstring) :
  exists (befores : list jsstring) (final : jsstring),
    List.length befores = List.length (words text)
    /\ weave befores (words text) final = text
    /\ Forall gap befores /\ gap final
    /\ Forall boundary befores
    /\ Forall (fun g => g <> []) (tl befores).
Proof.
  destruct (words_weave_lead text)
    as [befores [final [H1 [H2 [H3 [H4 [H5 [H6 _]]]]]]]].
  exists befores, final. repeat split; assumption.
Qed.

Lemma match_global_separator (consumed : nat) (a b : jsstring) (sep : code_unit) :
  WORD_CLASS sep = false -> (consumed <= List.length a)%nat ->
  match_global WORD_REGEX consumed (a ++ sep :: b)
  = match_global WORD_REGEX consumed a ++ words b.
Proof.
  intros Hsep. revert consumed. induction a as [|u a IH]; intros consumed Hn.
  - destruct consumed; [|simpl in Hn; lia].
    cbn [app match_global]. unfold WORD_REGEX at 1. cbn [longest_run].
    rewrite Hsep. reflexivity.
  - destruct consumed as [|k].
    + cbn [app match_global].
      assert (WORD_REGEX (u :: a ++ sep :: b) = WORD_REGEX (u :: a)) as ->.
      { unfold WORD_REGEX. change (u :: a ++ sep :: b) with ((u :: a) ++ sep :: b).
        rewrite (longest_run_app WORD_CLASS (u :: a) b sep Hsep). reflexivity. }
      destruct (WORD_REGEX (u :: a)) as [m|] eqn:E.
      * destruct (WORD_REGEX_Some _ _ E) as [[Hne _] [hy [rest [Es _]]]].
        apply (f_equal (@List.length _)) in Es. rewrite !length_app in Es.
        cbn [List.length] in Es.
        rewrite IH; [reflexivity|]. destruct m; [contradiction|].
        cbn [List.length] in *. lia.
      * rewrite IH; [reflexivity | lia].
    + cbn [app match_global]. apply IH. simpl in Hn. lia.
Qed.

(** X4: a code unit outside the class [[\w'-]] (a space, a punctuation mark,
    an accented letter) separates words: the words of two texts joined by it
    are the words of the first and then the words of the second. *)
Theorem words_separator (a b : jsstring) (sep : code_unit) :
  WORD_CLASS sep = false -> words (a ++ sep :: b) = words a ++ words b.
Proof.
  intros Hsep. apply match_global_separator; [exact Hsep | lia].
Qed.

Lemma words_separator_witness :
  WORD_CLASS 0xE8 = false
  /\ words (js "grand-m" ++ 0xE8 :: js "re") = words (js "grand-m") ++ words (js "re").
Proof.
  split; [reflexivity|].
  exact (words_separator (js "grand-m") (js "re") 0xE8 eq_refl).
Defined.

(** ** Further properties: the validators *)

Section ValidatorProperties.

Variable U : UCD.

(** X5: a result carries an error exactly when it is invalid: each of the
    four validators returns either [{ isValid: true }] without an error or
    [{ isValid: false, error }] with one. *)
Theorem validate_result_shape (c : Constraint) (text param : jsstring) :
  In c (CONSTRAINTS U) ->
  (isValid (validate c text param) = true /\ error (validate c text param) = None)
  \/ (isValid (validate c text param) = false
      /\ exists message, error (validate c text param) = Some message).
Proof.
  intros Hc. simpl in Hc.
  destruct Hc as [<- | [<- | [<- | [<- | []]]]]; cbn [validate].
  - unfold lipogram_validate. destruct (includes _ _).
    + right. split; [reflexivity | eexists; reflexivity].
    + left. split; reflexivity.
  - unfold monovocalism_validate.
    induction (string_iterator (normalizeText U (toLowerCase U text)))
      as [|char rest IH]; cbn [monovocalism_loop].
    + left. split; reflexivity.
    + destruct (array_includes _ char); [|exact IH].
      right. split; [reflexivity | eexists; reflexivity].
  - unfold tautogram_validate.
    destruct (alliteration_loop_tautogram_loop U (toLowerCase U param) (words text))
      as [[-> _] | [w [_ [-> _]]]].
    + left. split; reflexivity.
    + right. split; [reflexivity | eexists; reflexivity].
  - unfold alliteration_validate.
    destruct (alliteration_loop_tautogram_loop U (toLowerCase U param) (words text))
      as [[_ ->] | [w [_ [_ ->]]]].
    + left. split; reflexivity.
    + right. split; [reflexivity | eexists; reflexivity].
Qed.

(** X6: the tautogram and the alliteration report the first word that
    fails: when they reject a text, every word before the one their error
    names begins with the lowercased parameter once lowercased and
    normalized, and the named word does not. *)
Theorem tautogram_first_failing_word (text param : jsstring) :
  isValid (tautogram_validate U text param) = false ->
  exists before word after,
    words text = before ++ word :: after
    /\ Forall (fun w => prefix (toLowerCase U param)
                               (normalizeText U (toLowerCase U w))) before
    /\ ~ prefix (toLowerCase U param) (normalizeText U (toLowerCase U word))
    /\ error (tautogram_validate U text param)
       = Some (js "Le mot " ++ dquote ++ word ++ dquote
               ++ js " ne commence pas par " ++ dquote ++ toLowerCase U param
               ++ dquote)
    /\ error (alliteration_validate U text param)
       = Some (js "Le mot " ++ dquote ++ word ++ dquote
               ++ js " ne commence pas par la consonne " ++ dquote
               ++ toLowerCase U param ++ dquote).
Proof.
  unfold tautogram_validate, alliteration_validate.
  generalize (toLowerCase U param) as p. intros p.
  induction (words text) as [|w ws IH]; cbn [tautogram_loop alliteration_loop];
    [discriminate|].
  destruct (startsWith (normalizeText U (toLowerCase U w)) p) eqn:E; cbn [negb].
  - intros H. destruct (IH H) as [before [word [after [-> [Hb [Hw [He Ha]]]]]]].
    exists (w :: before), word, after.
    split; [reflexivity|]. split; [|auto].
    constructor; [apply startsWith_prefix; exact E | exact Hb].
  - intros _. exists [], w, ws.
    split; [reflexivity|]. split; [constructor|].
    split; [|split; reflexivity].
    intros H. apply startsWith_prefix in H. congruence.
Qed.

(** X7: the monovocalism reports the first character that is a vowel other
    than the allowed one: when it rejects a text, no character before the one
    its error names is such a vowel. *)
Theorem monovocalism_first_other_vowel (text param : jsstring) :
  isValid (monovocalism_validate U text param) = false ->
  exists before char after,
    string_iterator (normalizeText U (toLowerCase U text))
    = before ++ char :: after
    /\ Forall (fun c => In c VOWELS -> c = toLowerCase U param) before
    /\ In char VOWELS /\ char <> toLowerCase U param
    /\ error (monovocalism_validate U text param)
       = Some (js "Voyelle non autorisée détectée : " ++ dquote ++ char
               ++ dquote).
Proof.
  unfold monovocalism_validate.
  generalize (toLowerCase U param) as allowedVowel. intros allowedVowel.
  induction (string_iterator (normalizeText U (toLowerCase U text)))
    as [|c chars IH]; cbn [monovocalism_loop]; [discriminate|].
  destruct (array_includes _ c) eqn:E.
  - intros _. exists [], c, chars.
    split; [reflexivity|]. split; [constructor|].
    assert (~ (In c VOWELS -> c = allowedVowel)) as Hc.
    { intros H. apply otherVowels_includes in H. congruence. }
    split; [|split; [|reflexivity]].
    + unfold array_includes in E. apply existsb_exists in E.
      destruct E as [v [Hv Ev]]. apply jsstring_eqb_eq in Ev. subst v.
      apply filter_In in Hv. apply Hv.
    + intros ->. apply Hc. reflexivity.
  - intros H. destruct (IH H) as [before [char [after [-> [Hb Hrest]]]]].
    exists (c :: before), char, after.
    split; [reflexivity|]. split; [|exact Hrest].
    constructor; [apply otherVowels_includes; exact E | exact Hb].
Qed.

Lemma monovocalism_loop_valid_eq (otherVowels chars : list jsstring) :
  isValid (monovocalism_loop otherVowels chars) = true ->
  monovocalism_loop otherVowels chars = valid.
Proof.
  induction chars as [|c chars IH]; cbn [monovocalism_loop]; [reflexivity|].
  destruct (array_includes otherVowels c); [discriminate | exact IH].
Qed.

Lemma monovocalism_valid_iff (text param : jsstring) :
  isValid (monovocalism_validate U text param) = true <->
  Forall (fun char => In char VOWELS -> char = toLowerCase U param)
         (string_iterator (normalizeText U (toLowerCase U text))).
Proof.
  unfold monovocalism_validate. rewrite monovocalism_loop_valid.
  split; intros H; eapply Forall_impl; try exact H;
    intros char; apply otherVowels_includes.
Qed.

(** X8: a parameter that is not a vowel once lowercased (a consonant, the
    empty string, two letters) allows no vowel: the monovocalism then accepts
    a text exactly when none of its characters, lowercased and normalized, is
    one of a, e, i, o, u, y. *)
Theorem monovocalism_without_vowel (text param : jsstring) :
  ~ In (toLowerCase U param) VOWELS ->
  (isValid (monovocalism_validate U text param) = true <->
   Forall (fun char => ~ In char VOWELS)
          (string_iterator (normalizeText U (toLowerCase U text)))).
Proof.
  intros Hp. rewrite monovocalism_valid_iff.
  split; intros H; eapply Forall_impl; try exact H; cbv beta.
  - intros char Hc Hin. apply Hp. rewrite <- (Hc Hin). exact Hin.
  - intros char Hc Hin. contradiction.
Qed.

(** X9: a text the monovocalism accepts with two parameters that differ
    once lowercased holds no vowel at all, and is accepted with every
    parameter. *)
Theorem monovocalism_two_vowels (text p q : jsstring) :
  toLowerCase U p <> toLowerCase U q ->
  isValid (monovocalism_validate U text p) = true ->
  isValid (monovocalism_validate U text q) = true ->
  Forall (fun char => ~ In char VOWELS)
         (string_iterator (normalizeText U (toLowerCase U text)))
  /\ forall param, monovocalism_validate U text param
                   = {| isValid := true; error := None |}.
Proof.
  intros Hpq Hp Hq. apply monovocalism_valid_iff in Hp, Hq.
  assert (Forall (fun char => ~ In char VOWELS)
            (string_iterator (normalizeText U (toLowerCase U text)))) as H.
  { rewrite Forall_forall in *. intros char Hc Hin.
    apply Hpq. rewrite <- (Hp char Hc Hin). exact (Hq char Hc Hin). }
  split; [exact H|]. intros param.
  assert (isValid (monovocalism_validate U text param) = true) as Hv.
  { apply monovocalism_valid_iff. eapply Forall_impl; [|exact H].
    intros char Hc Hin. contradiction. }
  apply monovocalism_loop_valid_eq in Hv. exact Hv.
Qed.

(** X10: with the empty parameter the tautogram and the alliteration accept
    every text: every word begins with the empty string. *)
Theorem tautogram_empty_parameter (text : jsstring) :
  tautogram_validate U text [] = {| isValid := true; error := None |}
  /\ alliteration_validate U text [] = {| isValid := true; error := None |}.
Proof.
  unfold tautogram_validate, alliteration_validate. rewrite toLowerCase_empty.
  induction (words text) as [|w ws [IH1 IH2]]; [split; reflexivity|].
  cbn [tautogram_loop alliteration_loop startsWith negb]. split; assumption.
Qed.

(** X11: on the empty text the monovocalism, the tautogram and the
    alliteration accept with every parameter string, listed or not; the
    lipogram accepts exactly when the lowercased parameter is not empty. *)
Theorem empty_text_any_parameter (param : jsstring) :
  monovocalism_validate U [] param = {| isValid := true; error := None |}
  /\ tautogram_validate U [] param = {| isValid := true; error := None |}
  /\ alliteration_validate U [] param = {| isValid := true; error := None |}
  /\ (isValid (lipogram_validate U [] param) = true <-> toLowerCase U param <> []).
Proof.
  repeat (split; [reflexivity|]).
  unfold lipogram_validate. rewrite toLowerCase_empty, normalizeText_empty.
  destruct (toLowerCase U param) as [|u p]; cbn.
  - split; [discriminate | intros H; contradiction].
  - split; [discriminate | reflexivity].
Qed.

End ValidatorProperties.

(** ** Further properties: parameters and texts of Basic Latin *)

Lemma includes_singleton (s : jsstring) (c : code_unit) :
  includes s [c] = true <-> In c s.
Proof.
  rewrite includes_substring. split.
  - intros [pre [post ->]]. apply in_or_app. right. left. reflexivity.
  - intros H. apply in_split in H. destruct H as [pre [post ->]].
    exists pre, post. reflexivity.
Qed.

(** A code unit that is no surrogate is a code point of the string. *)
Lemma StringToCodePoints_In_unit (s : jsstring) (u : code_unit) :
  u < 0xD800 -> In u s -> In u (StringToCodePoints s).
Proof.
  intros Hu.
  assert (is_leading_surrogate u = false) as Hl.
  { unfold is_leading_surrogate.
    assert ((0xD800 <=? u) = false) as -> by (apply N.leb_gt; exact Hu).
    reflexivity. }
  assert (is_trailing_surrogate u = false) as Ht.
  { unfold is_trailing_surrogate.
    assert ((0xDC00 <=? u) = false) as -> by (apply N.leb_gt; lia).
    reflexivity. }
  enough ((In u s -> In u (StringToCodePoints s)) /\
          (forall v, In u (v :: s) -> In u (StringToCodePoints (v :: s))))
    as H by apply H.
  induction s as [|w s [IH1 IH2]].
  - split; [intros [] | intros v H; exact H].
  - split; [apply IH2|]. intros v. cbn [StringToCodePoints].
    destruct (is_leading_surrogate v && is_trailing_surrogate w) eqn:E.
    + apply andb_true_iff in E. destruct E as [E1 E2].
      intros [<- | [<- | H]]; [congruence | congruence | right; apply IH1, H].
    + intros [<- | H]; [left; reflexivity | right; apply IH2, H].
Qed.

Lemma CodePointsToString_In (l : list code_point) (x : code_point) :
  x <= 0xFFFF -> In x l -> In x (CodePointsToString l).
Proof.
  intros Hx H. unfold CodePointsToString. apply in_flat_map. exists x.
  split; [exact H|]. unfold UTF16EncodeCodePoint.
  apply N.leb_le in Hx. rewrite Hx. left. reflexivity.
Qed.

(** A character below the surrogates is yielded by the iteration exactly when
    its code unit is in the string. *)
Lemma string_iterator_In (s : jsstring) (u : code_unit) :
  u < 0xD800 -> (In [u] (string_iterator s) <-> In u s).
Proof.
  intros Hu. unfold string_iterator. rewrite in_map_iff. split.
  - intros [cp [E H]]. unfold UTF16EncodeCodePoint in E.
    destruct (cp <=? 0xFFFF); [|discriminate]. injection E as ->.
    apply StringToCodePoints_In in H. destruct H as [H | H]; [exact H | lia].
  - intros H. exists u. split; [|apply StringToCodePoints_In_unit; assumption].
    unfold UTF16EncodeCodePoint.
    assert ((u <=? 0xFFFF) = true) as -> by (apply N.leb_le; lia). reflexivity.
Qed.

Section BasicLatinCase.

Variable U : UCD.
Hypothesis HU : basic_latin_case U.

Lemma toLowerCase_lowercase_letter (c : code_unit) :
  0x61 <= c <= 0x7A -> toLowerCase U [c] = [c].
Proof.
  intros Hc. rewrite (toLowerCase_basic_latin U c HU) by lia.
  unfold basic_latin_lowercase.
  assert ((c <=? 0x5A) = false) as -> by (apply N.leb_gt; lia).
  rewrite andb_false_r. reflexivity.
Qed.

Lemma vowel_inv (v : jsstring) :
  In v VOWELS -> exists c, v = [c] /\ 0x61 <= c <= 0x7A.
Proof.
  intros H. simpl in H.
  repeat (destruct H as [<- | H];
          [eexists; split; [reflexivity | split; intro; discriminate]|]).
  destruct H.
Qed.

(** X12: the monovocalism, the tautogram and the alliteration do not tell
    an uppercase parameter from the lowercase one: for every text and every
    letter A to Z the result is the result with a to z. *)
Theorem parameter_case (text : jsstring) (upper : code_unit) :
  0x41 <= upper <= 0x5A ->
  monovocalism_validate U text [upper] = monovocalism_validate U text [upper + 0x20]
  /\ tautogram_validate U text [upper] = tautogram_validate U text [upper + 0x20]
  /\ alliteration_validate U text [upper]
     = alliteration_validate U text [upper + 0x20].
Proof.
  intros Hu.
  assert (toLowerCase U [upper] = toLowerCase U [upper + 0x20]) as E.
  { rewrite !(toLowerCase_basic_latin U _ HU) by lia.
    destruct (basic_latin_lowercase_upper upper Hu) as [-> ->]. reflexivity. }
  unfold monovocalism_validate, tautogram_validate, alliteration_validate.
  rewrite E. repeat split; reflexivity.
Qed.

(** X13: a monovocalism is a lipogram in each of the other vowels: the
    monovocalism accepts a text exactly when the lipogram accepts it with
    every vowel of VOWELS other than the lowercased parameter. *)
Theorem monovocalism_iff_lipograms (text param : jsstring) :
  isValid (monovocalism_validate U text param) = true <->
  (forall v, In v VOWELS -> v <> toLowerCase U param ->
             isValid (lipogram_validate U text v) = true).
Proof.
  rewrite monovocalism_valid_iff.
  assert (forall v, In v VOWELS ->
            (isValid (lipogram_validate U text v) = true <->
             ~ In v (string_iterator (normalizeText U (toLowerCase U text)))))
    as Hlip.
  { intros v Hv. destruct (vowel_inv v Hv) as [c [-> Hc]].
    rewrite string_iterator_In by lia. rewrite <- includes_singleton.
    unfold lipogram_validate. rewrite (toLowerCase_lowercase_letter c Hc).
    destruct (includes _ _); cbn; split; congruence. }
  rewrite Forall_forall. split.
  - intros H v Hv Hne. apply (Hlip v Hv). intros Hin. apply Hne, H; assumption.
  - intros H char Hin Hv.
    destruct (list_eq_dec N.eq_dec char (toLowerCase U param)) as [E | NE];
      [exact E|].
    exfalso. apply (proj1 (Hlip char Hv) (H char Hv NE)), Hin.
Qed.

End BasicLatinCase.

(** ** Further properties: texts joined by a separator *)

Section Separator.

Variable U : UCD.

Lemma tautogram_loop_app (p : jsstring) (ws1 ws2 : list jsstring) :
  tautogram_loop U p (ws1 ++ ws2)
  = if isValid (tautogram_loop U p ws1)
    then tautogram_loop U p ws2 else tautogram_loop U p ws1.
Proof.
  induction ws1 as [|w ws1 IH]; cbn [app tautogram_loop]; [reflexivity|].
  destruct (negb (startsWith _ p)); [reflexivity | exact IH].
Qed.

Lemma alliteration_loop_app (p : jsstring) (ws1 ws2 : list jsstring) :
  alliteration_loop U p (ws1 ++ ws2)
  = if isValid (alliteration_loop U p ws1)
    then alliteration_loop U p ws2 else alliteration_loop U p ws1.
Proof.
  induction ws1 as [|w ws1 IH]; cbn [app alliteration_loop]; [reflexivity|].
  destruct (negb (startsWith _ p)); [reflexivity | exact IH].
Qed.

(** X14: validating two texts joined by a code unit outside the class
    [[\w'-]] is validating the first and, when it passes, the second: the
    tautogram and the alliteration return the result of the first text when
    it is invalid, and the result of the second otherwise. *)
Theorem tautogram_separator (a b param : jsstring) (sep : code_unit) :
  WORD_CLASS sep = false ->
  tautogram_validate U (a ++ sep :: b) param
  = (if isValid (tautogram_validate U a param)
     then tautogram_validate U b param else tautogram_validate U a param)
  /\ alliteration_validate U (a ++ sep :: b) param
     = (if isValid (alliteration_validate U a param)
        then alliteration_validate U b param
        else alliteration_validate U a param).
Proof.
  intros Hsep. unfold tautogram_validate, alliteration_validate, words.
  rewrite (match_global_separator O a b sep Hsep) by lia.
  fold (words a). split.
  - apply tautogram_loop_app.
  - apply alliteration_loop_app.
Qed.

End Separator.

(** ** Further properties: Basic Latin and Latin-1 text *)

Lemma StringToCodePoints_basic_latin (s : jsstring) :
  basic_latin s -> StringToCodePoints s = s.
Proof.
  induction 1 as [|u s Hu _ IH]; [reflexivity|].
  rewrite StringToCodePoints_not_leading, IH; [reflexivity|].
  unfold is_leading_surrogate.
  assert ((0xD800 <=? u) = false) as -> by (apply N.leb_gt; lia). reflexivity.
Qed.

Lemma CodePointsToString_basic_latin (l : list code_point) :
  basic_latin l -> CodePointsToString l = l.
Proof.
  induction 1 as [|c l Hc _ IH]; [reflexivity|].
  rewrite CodePointsToString_cons, IH. unfold UTF16EncodeCodePoint.
  assert ((c <=? 0xFFFF) = true) as -> by (apply N.leb_le; lia). reflexivity.
Qed.

Lemma string_iterator_basic_latin (s : jsstring) :
  basic_latin s -> string_iterator s = map (fun u => [u]) s.
Proof.
  intros Hs. unfold string_iterator. rewrite (StringToCodePoints_basic_latin s Hs).
  apply map_ext_in. intros u Hu. unfold basic_latin in Hs.
  rewrite Forall_forall in Hs. specialize (Hs u Hu). unfold UTF16EncodeCodePoint.
  assert ((u <=? 0xFFFF) = true) as -> by (apply N.leb_le; lia). reflexivity.
Qed.

Lemma basic_latin_lowercase_le (c : code_point) :
  c <= 0x7F -> basic_latin_lowercase c <= 0x7F.
Proof.
  intros Hc. unfold basic_latin_lowercase.
  destruct ((0x41 <=? c) && (c <=? 0x5A)) eqn:E; [|exact Hc].
  apply andb_true_iff in E. destruct E as [_ E]. apply N.leb_le in E. lia.
Qed.

Lemma basic_latin_lowercase_eq (u c : code_point) :
  0x61 <= c <= 0x7A ->
  (basic_latin_lowercase u = c <-> u = c \/ u = c - 0x20).
Proof.
  intros Hc. unfold basic_latin_lowercase.
  destruct ((0x41 <=? u) && (u <=? 0x5A)) eqn:E.
  - apply andb_true_iff in E. destruct E as [E1 E2].
    apply N.leb_le in E1, E2. lia.
  - apply andb_false_iff in E. destruct E as [E | E];
      [apply N.leb_gt in E | apply N.leb_gt in E]; lia.
Qed.

Lemma basic_latin_map_lowercase (s : jsstring) :
  basic_latin s -> basic_latin (map basic_latin_lowercase s).
Proof.
  intros H. unfold basic_latin. rewrite Forall_map.
  eapply Forall_impl; [|exact H]. apply basic_latin_lowercase_le.
Qed.

Lemma toLowerCase_basic_latin_text (U : UCD) (s : jsstring) :
  basic_latin_case U -> basic_latin s ->
  toLowerCase U s = map basic_latin_lowercase s.
Proof.
  intros HU Hs. unfold toLowerCase. rewrite (StringToCodePoints_basic_latin s Hs).
  assert (forall before, toLowercase_from U before s = map basic_latin_lowercase s)
    as ->.
  { induction Hs as [|u s Hu _ IH]; intros before; [reflexivity|].
    cbn [toLowercase_from map]. rewrite HU by exact Hu. rewrite IH. reflexivity. }
  apply CodePointsToString_basic_latin, basic_latin_map_lowercase, Hs.
Qed.

Lemma has_excerpt_basic_latin_case (U : UCD) : has_excerpt U -> basic_latin_case U.
Proof.
  intros HU before c after Hc.
  rewrite (excerpt_lowercase U HU).
  - apply UCD_excerpt_basic_latin_case, Hc.
  - unfold covered. assert ((c <=? 0xFF) = true) as -> by (apply N.leb_le; lia).
    reflexivity.
Qed.

Lemma canonically_ordered_starters (U : UCD) (l : list code_point) :
  Forall (fun x => ccc U x = 0) l -> canonically_ordered U l.
Proof.
  induction 1 as [|a l Ha Hl IH]; [exact I|].
  split; [|exact IH]. destruct Hl as [|b l Hb _]; [exact I | left; exact Hb].
Qed.

Lemma UCD_excerpt_basic_latin_decomposition (c : code_point) :
  c <= 0x7F ->
  canonical_decomposition UCD_excerpt c = [c] /\ ccc UCD_excerpt c = 0.
Proof.
  intros Hc.
  assert (forallb (fun k => match canonical_decomposition UCD_excerpt k with
                            | [d] => (d =? k) && (ccc UCD_excerpt k =? 0)
                            | _ => false
                            end) (code_points_from 0 128) = true) as H
    by (vm_compute; reflexivity).
  rewrite forallb_forall in H.
  specialize (H c (code_points_from_In 0 128 c (N.le_0_l c) ltac:(simpl; lia))).
  destruct (canonical_decomposition UCD_excerpt c) as [|d [|]]; try discriminate.
  apply andb_true_iff in H. destruct H as [H1 H2].
  apply N.eqb_eq in H1, H2. subst d. split; [reflexivity | exact H2].
Qed.

Lemma filter_all {A : Type} (f : A -> bool) (l : list A) :
  Forall (fun x => f x = true) l -> filter f l = l.
Proof.
  induction 1 as [|x l Hx _ IH]; [reflexivity|].
  cbn [filter]. rewrite Hx, IH. reflexivity.
Qed.

Lemma forallb_covered_basic_latin (s : jsstring) :
  basic_latin s -> forallb covered s = true.
Proof.
  intros H. apply forallb_forall. unfold basic_latin in H.
  rewrite Forall_forall in H. intros u Hu. specialize (H u Hu). unfold covered.
  assert ((u <=? 0xFF) = true) as -> by (apply N.leb_le; lia). reflexivity.
Qed.

Lemma normalizeText_basic_latin (U : UCD) (s : jsstring) :
  has_excerpt U -> basic_latin s -> normalizeText U s = s.
Proof.
  intros HU Hs.
  rewrite (normalizeText_excerpt U HU).
  2:{ rewrite (StringToCodePoints_basic_latin s Hs).
      apply forallb_covered_basic_latin, Hs. }
  rewrite normalizeText_code_points, (StringToCodePoints_basic_latin s Hs).
  rewrite NFD_fixed.
  - rewrite filter_all; [apply CodePointsToString_basic_latin, Hs|].
    eapply Forall_impl; [|exact Hs]. intros u Hu. cbv beta in *.
    unfold combining_diacritical.
    assert ((0x300 <=? u) = false) as -> by (apply N.leb_gt; lia). reflexivity.
  - intros x Hx. unfold basic_latin in Hs. rewrite Forall_forall in Hs.
    apply UCD_excerpt_basic_latin_decomposition, Hs, Hx.
  - apply canonically_ordered_starters. eapply Forall_impl; [|exact Hs].
    intros u Hu. cbv beta in *. apply UCD_excerpt_basic_latin_decomposition, Hu.
Qed.

Section Excerpt_text.

Variable U : UCD.
Hypothesis HU : has_excerpt U.

Lemma normalizeText_toLowerCase_basic_latin (s : jsstring) :
  basic_latin s ->
  normalizeText U (toLowerCase U s) = map basic_latin_lowercase s.
Proof.
  intros Hs.
  rewrite (toLowerCase_basic_latin_text U s (has_excerpt_basic_latin_case U HU) Hs).
  apply normalizeText_basic_latin; [exact HU|].
  apply basic_latin_map_lowercase, Hs.
Qed.

(** X15: text without accents goes through unchanged: on a string of Basic
    Latin characters [toLowerCase] only maps A to Z to a to z, and
    [normalizeText] returns the string as it is. *)
Theorem normalizeText_unaccented (s : jsstring) :
  basic_latin s ->
  normalizeText U s = s
  /\ toLowerCase U s = map basic_latin_lowercase s
  /\ normalizeText U (toLowerCase U s) = map basic_latin_lowercase s.
Proof.
  intros Hs. split; [apply normalizeText_basic_latin; assumption|].
  split; [|apply normalizeText_toLowerCase_basic_latin, Hs].
  apply toLowerCase_basic_latin_text; [|exact Hs].
  apply has_excerpt_basic_latin_case, HU.
Qed.

(** X16: on a text of Basic Latin characters the lipogram in a letter a to z
    rejects exactly the texts that hold the letter or its capital. *)
Theorem lipogram_unaccented (text : jsstring) (c : code_unit) :
  basic_latin text -> 0x61 <= c <= 0x7A ->
  (isValid (lipogram_validate U text [c]) = false <->
   In c text \/ In (c - 0x20) text).
Proof.
  intros Ht Hc. unfold lipogram_validate.
  rewrite (normalizeText_toLowerCase_basic_latin text Ht).
  rewrite (toLowerCase_lowercase_letter U (has_excerpt_basic_latin_case U HU) c Hc).
  assert (includes (map basic_latin_lowercase text) [c] = true <->
          In c text \/ In (c - 0x20) text) as H.
  { rewrite includes_singleton, in_map_iff. split.
    - intros [u [E Hu]]. apply (basic_latin_lowercase_eq u c Hc) in E.
      destruct E as [-> | ->]; [left | right]; exact Hu.
    - intros [H | H]; eexists; (split; [|exact H]);
        apply (basic_latin_lowercase_eq _ c Hc); [left | right]; reflexivity. }
  destruct (includes _ _); cbn; rewrite <- H; split; congruence.
Qed.

(** X17: the tautogram and the alliteration in a letter a to z accept a
    text, whatever its characters, exactly when every word the tokenizer
    returns begins with the letter or with its capital: the words are Basic
    Latin, so that an accent never counts. *)
Theorem tautogram_letter (text : jsstring) (c : code_unit) :
  0x61 <= c <= 0x7A ->
  (isValid (tautogram_validate U text [c]) = true <->
   Forall (fun w => exists rest, w = c :: rest \/ w = (c - 0x20) :: rest)
          (words text))
  /\ isValid (alliteration_validate U text [c])
     = isValid (tautogram_validate U text [c]).
Proof.
  intros Hc. split; [|apply alliteration_loop_valid].
  unfold tautogram_validate. rewrite tautogram_loop_valid.
  rewrite (toLowerCase_lowercase_letter U (has_excerpt_basic_latin_case U HU) c Hc).
  pose proof (words_Forall_token text) as Hw.
  rewrite !Forall_forall in *.
  assert (forall w, In w (words text) ->
            (prefix [c] (normalizeText U (toLowerCase U w)) <->
             exists rest, w = c :: rest \/ w = (c - 0x20) :: rest)) as H.
  { intros w Hin. pose proof (token_basic_latin w (Hw w Hin)) as Hb.
    rewrite (normalizeText_toLowerCase_basic_latin w Hb). split.
    - intros [rest E]. destruct w as [|u w]; [discriminate|].
      cbn [map app] in E. injection E as E _.
      apply (basic_latin_lowercase_eq u c Hc) in E.
      exists w. destruct E as [-> | ->]; [left | right]; reflexivity.
    - intros [rest [-> | ->]]; exists (map basic_latin_lowercase rest);
        cbn [map app]; f_equal; apply (basic_latin_lowercase_eq _ c Hc);
        [left | right]; reflexivity. }
  split; intros H1 w Hin; apply (H w Hin), H1, Hin.
Qed.

(** X18: on a text of Basic Latin characters the monovocalism in a letter
    accepts exactly the texts in which every vowel, capital or not, is that
    letter. *)
Theorem monovocalism_unaccented (text : jsstring) (c : code_unit) :
  basic_latin text -> 0x61 <= c <= 0x7A ->
  (isValid (monovocalism_validate U text [c]) = true <->
   Forall (fun u => In [basic_latin_lowercase u] VOWELS ->
                    basic_latin_lowercase u = c) text).
Proof.
  intros Ht Hc. rewrite monovocalism_valid_iff.
  rewrite (normalizeText_toLowerCase_basic_latin text Ht).
  rewrite (toLowerCase_lowercase_letter U (has_excerpt_basic_latin_case U HU) c Hc).
  rewrite (string_iterator_basic_latin _ (basic_latin_map_lowercase text Ht)).
  rewrite !Forall_map. split; intros H; eapply Forall_impl; try exact H; cbv beta.
  - intros u Hu Hv. specialize (Hu Hv). injection Hu as Hu. exact Hu.
  - intros u Hu Hv. rewrite (Hu Hv). reflexivity.
Qed.

End Excerpt_text.

(** ** Further properties: accents *)

Lemma place_In_rev (U : UCD) (c x : code_point) (l : list code_point) :
  x = c \/ In x l -> In x (place U c l).
Proof.
  induction l as [|d l IH]; cbn [place].
  - intros [-> | []]. left. reflexivity.
  - destruct ((0 <? ccc U d) && (ccc U d <? ccc U c)).
    + intros [-> | [<- | H]];
        [right; apply IH; left; reflexivity | left; reflexivity
        | right; apply IH; right; exact H].
    + intros [-> | H]; [left; reflexivity | right; exact H].
Qed.

Lemma canonical_order_In_rev (U : UCD) (x : code_point) (l : list code_point) :
  In x l -> In x (canonical_order U l).
Proof.
  induction l as [|c l IH]; cbn [canonical_order]; [tauto|].
  intros [<- | H]; apply place_In_rev; [left; reflexivity | right; apply IH, H].
Qed.

(** A Latin-1 character that lowercases and normalizes to a letter a to z has
    a lowercase, of Latin-1 as well, whose decomposition holds the letter. *)
Lemma base_letters_latin1 (u b : code_unit) :
  u <= 0xFF -> In b (base_letters u) -> 0x61 <= b <= 0x7A ->
  exists l, In l (Lowercase_Mapping UCD_excerpt [] u []) /\ l <= 0xFF
            /\ In b (canonical_decomposition UCD_excerpt l).
Proof.
  intros Hu Hb [Hb1 Hb2].
  assert (forallb
            (fun k =>
               forallb
                 (fun x =>
                    negb ((0x61 <=? x) && (x <=? 0x7A))
                    || existsb
                         (fun l => (l <=? 0xFF)
                                   && existsb (N.eqb x)
                                        (canonical_decomposition UCD_excerpt l))
                         (Lowercase_Mapping UCD_excerpt [] k []))
                 (base_letters k))
            (code_points_from 0 256) = true) as H by (vm_compute; reflexivity).
  rewrite forallb_forall in H.
  specialize (H u (code_points_from_In 0 256 u (N.le_0_l u) ltac:(simpl; lia))).
  rewrite forallb_forall in H. specialize (H b Hb).
  apply N.leb_le in Hb1, Hb2. rewrite Hb1, Hb2 in H. cbn [andb negb orb] in H.
  apply existsb_exists in H. destruct H as [l [Hl H]].
  apply andb_true_iff in H. destruct H as [H1 H2]. apply N.leb_le in H1.
  apply existsb_exists in H2. destruct H2 as [x [Hx E]].
  apply N.eqb_eq in E. subst x. exists l. auto.
Qed.

Section Accents.

Variable U : UCD.
Hypothesis HU : has_excerpt U.

Lemma toLowercase_from_In (X before : list code_point) (C x : code_point) :
  covered C = true -> In C X ->
  In x (Lowercase_Mapping UCD_excerpt [] C []) ->
  In x (toLowercase_from U before X).
Proof.
  intros HC Hin Hx. revert before.
  induction X as [|D X IH]; intros before; [destruct Hin|].
  cbn [toLowercase_from]. apply in_or_app. destruct Hin as [-> | Hin].
  - left. rewrite (excerpt_lowercase U HU) by exact HC. exact Hx.
  - right. apply IH, Hin.
Qed.

Lemma covered_latin1 (c : code_point) : c <= 0xFF -> covered c = true.
Proof.
  intros Hc. unfold covered.
  assert ((c <=? 0xFF) = true) as -> by (apply N.leb_le; exact Hc). reflexivity.
Qed.

(** A letter a Latin-1 character of the text folds to is a code unit of the
    lowercased, normalized text. *)
Lemma normalizeText_base_letter (text : jsstring) (u b : code_unit) :
  u <= 0xFF -> In b (base_letters u) -> 0x61 <= b <= 0x7A -> In u text ->
  In b (normalizeText U (toLowerCase U text)).
Proof.
  intros Hu Hb Hb' Hin.
  destruct (base_letters_latin1 u b Hu Hb Hb') as [l [Hl [Hl' Hd]]].
  assert (In l (toLowerCase U text)) as H1.
  { unfold toLowerCase. apply CodePointsToString_In; [lia|].
    apply (toLowercase_from_In _ _ u); [apply covered_latin1, Hu | | exact Hl].
    apply StringToCodePoints_In_unit; [lia | exact Hin]. }
  rewrite normalizeText_code_points. apply CodePointsToString_In; [lia|].
  apply filter_In. split.
  - unfold NFD. apply canonical_order_In_rev, in_flat_map. exists l. split.
    + apply StringToCodePoints_In_unit; [lia | exact H1].
    + rewrite (excerpt_decomposition U HU) by (apply covered_latin1, Hl').
      exact Hd.
  - unfold combining_diacritical.
    assert ((0x300 <=? b) = false) as -> by (apply N.leb_gt; lia). reflexivity.
Qed.

(** X19: accents fold, as the comment above [normalizeText] says: when a
    Latin-1 character, lowercased and normalized on its own, gives a letter
    a to z (é, è, ê, ë, É and E give e; ç gives c), the lipogram in that
    letter rejects every text that holds the character, and the
    monovocalism rejects it too when the letter is a vowel other than the
    allowed one. *)
Theorem accent_folding (text : jsstring) (u b : code_unit) :
  u <= 0xFF -> In b (base_letters u) -> 0x61 <= b <= 0x7A -> In u text ->
  lipogram_validate U text [b]
  = {| isValid := false;
       error := Some (js "Lettre interdite détectée : " ++ dquote ++ [b]
                      ++ dquote) |}
  /\ (forall param, In [b] VOWELS -> [b] <> toLowerCase U param ->
        isValid (monovocalism_validate U text param) = false).
Proof.
  intros Hu Hb Hb' Hin.
  pose proof (has_excerpt_basic_latin_case U HU) as Hcase.
  assert (lipogram_validate U text [b]
          = {| isValid := false;
               error := Some (js "Lettre interdite détectée : " ++ dquote ++ [b]
                              ++ dquote) |}) as Hlip.
  { unfold lipogram_validate.
    rewrite (toLowerCase_lowercase_letter U Hcase b Hb').
    rewrite (proj2 (includes_singleton _ b)
                   (normalizeText_base_letter text u b Hu Hb Hb' Hin)).
    reflexivity. }
  split; [exact Hlip|].
  intros param Hv Hne.
  destruct (isValid (monovocalism_validate U text param)) eqn:E; [|reflexivity].
  exfalso. apply monovocalism_valid_iff in E. rewrite Forall_forall in E.
  apply Hne, E; [|exact Hv].
  apply string_iterator_In; [lia|].
  exact (normalizeText_base_letter text u b Hu Hb Hb' Hin).
Qed.

End Accents.

(** ** Further properties: the letters *)

Lemma sort_insert_In (x y : jsstring) (l : list jsstring) :
  In y (sort_insert x l) <-> y = x \/ In y l.
Proof.
  induction l as [|z l IH]; cbn [sort_insert].
  - simpl. intuition congruence.
  - destruct (jsstring_ltb z x); cbn [In]; [rewrite IH|]; intuition congruence.
Qed.

Lemma sort_In (y : jsstring) (l : list jsstring) : In y (sort l) <-> In y l.
Proof.
  unfold sort.
  assert (forall acc, In y (fold_left (fun acc x => sort_insert x acc) l acc)
                      <-> In y l \/ In y acc) as H.
  { induction l as [|x l IH]; intros acc; cbn [fold_left].
    - simpl. tauto.
    - rewrite IH, sort_insert_In. simpl. intuition congruence. }
  rewrite H. simpl. tauto.
Qed.

(** X20: the letters: ALPHABET is a, b, ..., z in this order, each letter
    once; a string is in it exactly when it is in VOWELS or in CONSONANTS,
    and none is in both. *)
Theorem alphabet_partition :
  ALPHABET = map (fun c => [c]) (code_points_from 0x61 26)
  /\ (forall l, In l ALPHABET <-> In l VOWELS \/ In l CONSONANTS)
  /\ (forall l, In l VOWELS -> ~ In l CONSONANTS).
Proof.
  split; [reflexivity|]. split.
  - intros l. unfold ALPHABET. rewrite sort_In. apply in_app_iff.
  - intros l Hv Hc. simpl in Hv.
    repeat (destruct Hv as [<- | Hv];
            [simpl in Hc; repeat (destruct Hc as [Hc | Hc]; [discriminate|]);
             exact Hc|]).
    exact Hv.
Qed.

(** X21: every option of every constraint of the registry is one lowercase
    letter a to z, which [toLowerCase] leaves as it is: with a listed
    parameter the validators compare with, and echo in their errors, the
    parameter as it is offered. *)
Theorem options_lowercase_letters (U : UCD) (c : Constraint) (param : jsstring) :
  basic_latin_case U -> In c (CONSTRAINTS U) ->
  In param (options (parameter c)) ->
  (exists l, param = [l] /\ 0x61 <= l <= 0x7A) /\ toLowerCase U param = param.
Proof.
  intros HU Hc Hp.
  assert (In param ALPHABET) as Ha.
  { simpl in Hc.
    destruct Hc as [<- | [<- | [<- | [<- | []]]]]; cbn [parameter options] in Hp;
      try exact Hp; unfold ALPHABET; apply sort_In, in_app_iff; auto. }
  rewrite ALPHABET_letters in Ha. apply in_map_iff in Ha.
  destruct Ha as [l [<- Hl]].
  assert (0x61 <= l <= 0x7A) as Hr.
  { simpl in Hl.
    repeat (destruct Hl as [<- | Hl]; [split; intro; discriminate|]).
    destruct Hl. }
  split; [exists l; split; [reflexivity | exact Hr]|].
  apply toLowerCase_lowercase_letter; assumption.
Qed.

(** ** Instances of the further properties, on the excerpt *)

Lemma validate_result_shape_witness :
  let c := {| id := monovocalism;
              name := js "Monovocalisme";
              description := js "Autorisation d’une seule voyelle.";
              parameter := {| type := vowel; label := js "Voyelle autorisée";
                              options := VOWELS |};
              validate := monovocalism_validate UCD_excerpt |} in
  In c (CONSTRAINTS UCD_excerpt)
  /\ ((isValid (validate c (js "bebe") (js "a")) = true
       /\ error (validate c (js "bebe") (js "a")) = None)
      \/ (isValid (validate c (js "bebe") (js "a")) = false
          /\ exists message, error (validate c (js "bebe") (js "a")) = Some message)).
Proof.
  intros c. assert (In c (CONSTRAINTS UCD_excerpt)) as Hc.
  { right. left. reflexivity. }
  split; [exact Hc|].
  exact (validate_result_shape UCD_excerpt c (js "bebe") (js "a") Hc).
Defined.

Lemma tautogram_first_failing_word_witness :
  isValid (tautogram_validate UCD_excerpt (js "Pierre porte des pommes.") (js "p"))
  = false
  /\ exists before word after,
       words (js "Pierre porte des pommes.") = before ++ word :: after
       /\ Forall (fun w => prefix (toLowerCase UCD_excerpt (js "p"))
                             (normalizeText UCD_excerpt (toLowerCase UCD_excerpt w)))
                 before
       /\ ~ prefix (toLowerCase UCD_excerpt (js "p"))
                   (normalizeText UCD_excerpt (toLowerCase UCD_excerpt word))
       /\ error (tautogram_validate UCD_excerpt (js "Pierre porte des pommes.")
                   (js "p"))
          = Some (js "Le mot " ++ dquote ++ word ++ dquote
                  ++ js " ne commence pas par " ++ dquote
                  ++ toLowerCase UCD_excerpt (js "p") ++ dquote)
       /\ error (alliteration_validate UCD_excerpt (js "Pierre porte des pommes.")
                   (js "p"))
          = Some (js "Le mot " ++ dquote ++ word ++ dquote
                  ++ js " ne commence pas par la consonne " ++ dquote
                  ++ toLowerCase UCD_excerpt (js "p") ++ dquote).
Proof.
  assert (isValid (tautogram_validate UCD_excerpt (js "Pierre porte des pommes.")
                     (js "p")) = false) as H by (vm_compute; reflexivity).
  split; [exact H|].
  exact (tautogram_first_failing_word UCD_excerpt (js "Pierre porte des pommes.")
           (js "p") H).
Defined.

Lemma monovocalism_first_other_vowel_witness :
  isValid (monovocalism_validate UCD_excerpt (js "papa bebe") (js "a")) = false
  /\ exists before char after,
       string_iterator (normalizeText UCD_excerpt
                          (toLowerCase UCD_excerpt (js "papa bebe")))
       = before ++ char :: after
       /\ Forall (fun c => In c VOWELS -> c = toLowerCase UCD_excerpt (js "a"))
                 before
       /\ In char VOWELS /\ char <> toLowerCase UCD_excerpt (js "a")
       /\ error (monovocalism_validate UCD_excerpt (js "papa bebe") (js "a"))
          = Some (js "Voyelle non autorisée détectée : " ++ dquote ++ char
                  ++ dquote).
Proof.
  assert (isValid (monovocalism_validate UCD_excerpt (js "papa bebe") (js "a"))
          = false) as H by (vm_compute; reflexivity).
  split; [exact H|].
  exact (monovocalism_first_other_vowel UCD_excerpt (js "papa bebe") (js "a") H).
Defined.

Lemma not_a_vowel_b : ~ In (toLowerCase UCD_excerpt (js "b")) VOWELS.
Proof.
  intros H. vm_compute in H.
  repeat (destruct H as [H | H]; [discriminate|]). exact H.
Qed.

Lemma monovocalism_without_vowel_witness :
  ~ In (toLowerCase UCD_excerpt (js "b")) VOWELS
  /\ (isValid (monovocalism_validate UCD_excerpt (js "brr") (js "b")) = true <->
      Forall (fun char => ~ In char VOWELS)
             (string_iterator (normalizeText UCD_excerpt
                                 (toLowerCase UCD_excerpt (js "brr"))))).
Proof.
  split; [exact not_a_vowel_b|].
  exact (monovocalism_without_vowel UCD_excerpt (js "brr") (js "b") not_a_vowel_b).
Defined.

Lemma monovocalism_two_vowels_witness :
  toLowerCase UCD_excerpt (js "a") <> toLowerCase UCD_excerpt (js "e")
  /\ isValid (monovocalism_validate UCD_excerpt (js "brr") (js "a")) = true
  /\ isValid (monovocalism_validate UCD_excerpt (js "brr") (js "e")) = true
  /\ forall param, monovocalism_validate UCD_excerpt (js "brr") param
                   = {| isValid := true; error := None |}.
Proof.
  assert (toLowerCase UCD_excerpt (js "a") <> toLowerCase UCD_excerpt (js "e"))
    as Hne by (vm_compute; discriminate).
  assert (isValid (monovocalism_validate UCD_excerpt (js "brr") (js "a")) = true)
    as Ha by (vm_compute; reflexivity).
  assert (isValid (monovocalism_validate UCD_excerpt (js "brr") (js "e")) = true)
    as He by (vm_compute; reflexivity).
  split; [exact Hne|]. split; [exact Ha|]. split; [exact He|].
  exact (proj2 (monovocalism_two_vowels UCD_excerpt (js "brr") (js "a") (js "e")
                  Hne Ha He)).
Defined.

Lemma parameter_case_witness :
  basic_latin_case UCD_excerpt /\ 0x41 <= 0x50 <= 0x5A
  /\ tautogram_validate UCD_excerpt (js "Pierre mange.") (js "P")
     = tautogram_validate UCD_excerpt (js "Pierre mange.") (js "p").
Proof.
  assert (0x41 <= 0x50 <= 0x5A) as Hp by (split; intro; discriminate).
  split; [exact UCD_excerpt_basic_latin_case|]. split; [exact Hp|].
  exact (proj1 (proj2 (parameter_case UCD_excerpt UCD_excerpt_basic_latin_case
                         (js "Pierre mange.") 0x50 Hp))).
Defined.

Lemma monovocalism_iff_lipograms_witness :
  basic_latin_case UCD_excerpt
  /\ (isValid (monovocalism_validate UCD_excerpt (js "papa") (js "a")) = true <->
      (forall v, In v VOWELS -> v <> toLowerCase UCD_excerpt (js "a") ->
                 isValid (lipogram_validate UCD_excerpt (js "papa") v) = true)).
Proof.
  split; [exact UCD_excerpt_basic_latin_case|].
  exact (monovocalism_iff_lipograms UCD_excerpt UCD_excerpt_basic_latin_case
           (js "papa") (js "a")).
Defined.

Lemma tautogram_separator_witness :
  WORD_CLASS 0x20 = false
  /\ tautogram_validate UCD_excerpt (js "Pierre" ++ 0x20 :: js "mange") (js "p")
     = (if isValid (tautogram_validate UCD_excerpt (js "Pierre") (js "p"))
        then tautogram_validate UCD_excerpt (js "mange") (js "p")
        else tautogram_validate UCD_excerpt (js "Pierre") (js "p")).
Proof.
  split; [reflexivity|].
  exact (proj1 (tautogram_separator UCD_excerpt (js "Pierre") (js "mange") (js "p")
                  0x20 eq_refl)).
Defined.

Lemma basic_latin_salut : basic_latin (js "Salut").
Proof. basic_latin_literal. Qed.

Lemma normalizeText_unaccented_witness :
  has_excerpt UCD_excerpt /\ basic_latin (js "Salut")
  /\ normalizeText UCD_excerpt (js "Salut") = js "Salut".
Proof.
  split; [exact UCD_excerpt_has_excerpt|]. split; [exact basic_latin_salut|].
  exact (proj1 (normalizeText_unaccented UCD_excerpt UCD_excerpt_has_excerpt
                  (js "Salut") basic_latin_salut)).
Defined.

Lemma lipogram_unaccented_witness :
  has_excerpt UCD_excerpt /\ basic_latin (js "Salut") /\ 0x61 <= 0x73 <= 0x7A
  /\ (isValid (lipogram_validate UCD_excerpt (js "Salut") (js "s")) = false <->
      In 0x73 (js "Salut") \/ In (0x73 - 0x20) (js "Salut")).
Proof.
  assert (0x61 <= 0x73 <= 0x7A) as Hs by (split; intro; discriminate).
  split; [exact UCD_excerpt_has_excerpt|]. split; [exact basic_latin_salut|].
  split; [exact Hs|].
  exact (lipogram_unaccented UCD_excerpt UCD_excerpt_has_excerpt (js "Salut") 0x73
           basic_latin_salut Hs).
Defined.

Lemma tautogram_letter_witness :
  has_excerpt UCD_excerpt /\ 0x61 <= 0x65 <= 0x7A
  /\ (isValid (tautogram_validate UCD_excerpt (js "école") (js "e")) = true <->
      Forall (fun w => exists rest, w = 0x65 :: rest \/ w = (0x65 - 0x20) :: rest)
             (words (js "école"))).
Proof.
  assert (0x61 <= 0x65 <= 0x7A) as He by (split; intro; discriminate).
  split; [exact UCD_excerpt_has_excerpt|]. split; [exact He|].
  exact (proj1 (tautogram_letter UCD_excerpt UCD_excerpt_has_excerpt (js "école")
                  0x65 He)).
Defined.

Lemma accent_folding_witness :
  has_excerpt UCD_excerpt /\ 0xE9 <= 0xFF /\ In 0x65 (base_letters 0xE9)
  /\ 0x61 <= 0x65 <= 0x7A /\ In 0xE9 (js "café")
  /\ lipogram_validate UCD_excerpt (js "café") (js "e")
     = {| isValid := false;
          error := Some (js "Lettre interdite détectée : " ++ dquote ++ js "e"
                         ++ dquote) |}.
Proof.
  assert (0xE9 <= 0xFF) as H1 by (intro; discriminate).
  assert (In 0x65 (base_letters 0xE9)) as H2 by (left; reflexivity).
  assert (0x61 <= 0x65 <= 0x7A) as H3 by (split; intro; discriminate).
  assert (In 0xE9 (js "café")) as H4 by (vm_compute; tauto).
  split; [exact UCD_excerpt_has_excerpt|]. split; [exact H1|]. split; [exact H2|].
  split; [exact H3|]. split; [exact H4|].
  exact (proj1 (accent_folding UCD_excerpt UCD_excerpt_has_excerpt (js "café")
                  0xE9 0x65 H1 H2 H3 H4)).
Defined.

Lemma options_lowercase_letters_witness :
  let c := {| id := alliteration;
              name := js "Allitération systématique";
              description :=
                js "Tous les mots doivent commencer par la même consonne.";
              parameter := {| type := consonant; label := js "Consonne initiale";
                              options := CONSONANTS |};
              validate := alliteration_validate UCD_excerpt |} in
  basic_latin_case UCD_excerpt /\ In c (CONSTRAINTS UCD_excerpt)
  /\ In (js "b") (options (parameter c))
  /\ toLowerCase UCD_excerpt (js "b") = js "b".
Proof.
  intros c.
  assert (In c (CONSTRAINTS UCD_excerpt)) as Hc.
  { right. right. right. left. reflexivity. }
  assert (In (js "b") (options (parameter c))) as Hp by (left; reflexivity).
  split; [exact UCD_excerpt_basic_latin_case|]. split; [exact Hc|].
  split; [exact Hp|].
  exact (proj2 (options_lowercase_letters UCD_excerpt c (js "b")
                  UCD_excerpt_basic_latin_case Hc Hp)).
Defined.

Lemma basic_latin_papa : basic_latin (js "Papa").
Proof. basic_latin_literal. Qed.

Lemma monovocalism_unaccented_witness :
  has_excerpt UCD_excerpt /\ basic_latin (js "Papa") /\ 0x61 <= 0x61 <= 0x7A
  /\ (isValid (monovocalism_validate UCD_excerpt (js "Papa") (js "a")) = true <->
      Forall (fun u => In [basic_latin_lowercase u] VOWELS ->
                       basic_latin_lowercase u = 0x61) (js "Papa")).
Proof.
  assert (0x61 <= 0x61 <= 0x7A) as Ha by (split; intro; discriminate).
  split; [exact UCD_excerpt_has_excerpt|]. split; [exact basic_latin_papa|].
  split; [exact Ha|].
  exact (monovocalism_unaccented UCD_excerpt UCD_excerpt_has_excerpt (js "Papa")
           0x61 basic_latin_papa Ha).
Defined.
